(** * cnerium / vix::async core: a shallow embedding

    The development follows the headers of the runtime:

    - [Error]      : core/error.hpp   (errc, error_code, make_error_code)
    - [Cancel]     : core/cancel.hpp  (cancel_state, cancel_token, cancel_source)
    - [Scheduler]  : core/scheduler.hpp (post, run, stop)
    - [Task]       : core/task.hpp    (promise, final_awaiter, task_awaiter, task)
    - [ThreadPool] : core/thread_pool.hpp (the awaitable built by submit)
    - [Net]        : net/asio_await.hpp (asio_awaitable)

    Heap objects (coroutine frames, shared cancellation states, task
    objects) live in finite maps indexed by addresses; a null pointer or a
    null coroutine handle is [None]. *)

From Stdlib Require Import ZArith Lia.
From stdpp Require Import base option list gmap strings.

Open Scope Z_scope.

(* ------------------------------------------------------------------ *)
(** ** core/error.hpp *)

Module Error.

Inductive errc :=
| ok | invalid_argument | not_ready | timeout | canceled | closed | overflow
| stopped | queue_full
| rejected
| not_supported.

(** [enum class errc : std::uint8_t], numbered from [ok = 0]. *)
Definition errc_value (e : errc) : Z :=
  match e with
  | ok => 0 | invalid_argument => 1 | not_ready => 2 | timeout => 3
  | canceled => 4 | closed => 5 | overflow => 6
  | stopped => 7 | queue_full => 8
  | rejected => 9
  | not_supported => 10
  end.

(** A [std::error_category] is identified by its [name()]. *)
Definition category_name := string.

Definition category : category_name := "async"%string.

Record error_code := mk_error_code { ec_value : Z; ec_category : category_name }.

Definition make_error_code (e : errc) : error_code :=
  {| ec_value := errc_value e; ec_category := category |}.

(** [explicit operator bool] of [std::error_code]: [value() != 0]. *)
Definition ec_bool (ec : error_code) : bool := negb (ec_value ec =? 0).

(** The exception objects that travel through [std::exception_ptr]:
    [std::system_error] carries an error code, every other exception is
    kept by its [what()] text. *)
Inductive exn :=
| system_error (ec : error_code)
| other_error (what : string).

(** [std::exception_ptr]: null or pointing at an exception object. *)
Definition exception_ptr := option exn.

(** [static_cast<errc>(c)] on an [int]: [errc] has the fixed underlying
    type [std::uint8_t], so [c] is first converted to it (modulo 256);
    [None] when the result names no enumerator. *)
Definition errc_cast (c : Z) : option errc :=
  match c mod 256 with
  | 0 => Some ok | 1 => Some invalid_argument | 2 => Some not_ready
  | 3 => Some timeout | 4 => Some canceled | 5 => Some closed
  | 6 => Some overflow | 7 => Some stopped | 8 => Some queue_full
  | 9 => Some rejected | 10 => Some not_supported
  | _ => None
  end.

(** The [case] labels of [error_category::message]. *)
Definition errc_message (e : errc) : string :=
  match e with
  | ok => "ok" | invalid_argument => "invalid argument"
  | not_ready => "not ready" | timeout => "timeout"
  | canceled => "canceled" | closed => "closed" | overflow => "overflow"
  | stopped => "stopped" | queue_full => "queue full"
  | rejected => "rejected"
  | not_supported => "not supported"
  end%string.

(** [error_category::message(int c)]. *)
Definition message (c : Z) : string :=
  match errc_cast c with
  | Some e => errc_message e
  | None => "unknown error"%string
  end.

End Error.

(* ------------------------------------------------------------------ *)
(** ** core/cancel.hpp *)

Module Cancel.

(** The [cancel_state] objects owned through [std::shared_ptr]: address
    to the value of the atomic flag [cancelled_]. *)
Abbreviation states := (gmap nat bool).

Record cancel_token := mk_token { tok_st_ : option nat }.
Record cancel_source := mk_source { src_st_ : option nat }.

(** [std::make_shared<cancel_state>()]: a new object, [cancelled_{false}]. *)
Definition make_shared (σ : states) : nat * states :=
  let l := fresh (dom σ) in (l, <[l := false]> σ).

(** [cancel_state::request_cancel]: [cancelled_.store(true, release)]. *)
Definition state_request_cancel (l : nat) (σ : states) : states :=
  <[l := true]> σ.

(** [cancel_state::is_cancelled]: [cancelled_.load(acquire)]. *)
Definition state_is_cancelled (l : nat) (σ : states) : bool :=
  default false (σ !! l).

(** [cancel_token() = default]. *)
Definition empty_token : cancel_token := {| tok_st_ := None |}.

Definition can_cancel (t : cancel_token) : bool :=
  match tok_st_ t with Some _ => true | None => false end.

Definition token_is_cancelled (t : cancel_token) (σ : states) : bool :=
  match tok_st_ t with
  | Some l => state_is_cancelled l σ
  | None => false
  end.

(** [cancel_source::cancel_source()]. *)
Definition new_source (σ : states) : cancel_source * states :=
  let '(l, σ') := make_shared σ in ({| src_st_ := Some l |}, σ').

Definition token (s : cancel_source) : cancel_token :=
  {| tok_st_ := src_st_ s |}.

Definition request_cancel (s : cancel_source) (σ : states) : states :=
  match src_st_ s with
  | Some l => state_request_cancel l σ
  | None => σ
  end.

Definition source_is_cancelled (s : cancel_source) (σ : states) : bool :=
  match src_st_ s with
  | Some l => state_is_cancelled l σ
  | None => false
  end.

(** [cancelled_ec()]. *)
Definition cancelled_ec : Error.error_code := Error.make_error_code Error.canceled.

(** Every member function of the header, as a call on the shared states.
    Constructing a source allocates; [request_cancel] stores; the
    observers only load. *)
Inductive call :=
| call_new_source
| call_token (s : cancel_source)
| call_request_cancel (s : cancel_source)
| call_source_is_cancelled (s : cancel_source)
| call_can_cancel (t : cancel_token)
| call_token_is_cancelled (t : cancel_token).

Definition step (c : call) (σ : states) : states :=
  match c with
  | call_new_source => (new_source σ).2
  | call_request_cancel s => request_cancel s σ
  | call_token _ | call_source_is_cancelled _
  | call_can_cancel _ | call_token_is_cancelled _ => σ
  end.

Definition run_calls (cs : list call) (σ : states) : states :=
  foldl (λ σ c, step c σ) σ cs.

End Cancel.

(* ------------------------------------------------------------------ *)
(** ** core/scheduler.hpp *)

Module Scheduler.

(** What a call leaves on the condition variable [cv_]. *)
Inductive cv_signal := notify_one | notify_all.

Section queue.
Context {J : Type}.

Record scheduler := mk_scheduler {
  q_ : list J;
  stop_requested_ : bool;
  running_ : bool
}.

(** [scheduler() = default]. *)
Definition init : scheduler :=
  {| q_ := []; stop_requested_ := false; running_ := false |}.

Definition set_q (q : list J) (s : scheduler) : scheduler :=
  {| q_ := q; stop_requested_ := stop_requested_ s; running_ := running_ s |}.

Definition set_running (b : bool) (s : scheduler) : scheduler :=
  {| q_ := q_ s; stop_requested_ := stop_requested_ s; running_ := b |}.

(** [post(Fn&&)]: [q_.emplace_back] under the lock, then [notify_one]. *)
Definition post (fn : J) (s : scheduler) : scheduler * cv_signal :=
  (set_q (q_ s ++ [fn]) s, notify_one).

(** [stop()]: the flag under the lock, then [notify_all]. *)
Definition stop (s : scheduler) : scheduler * cv_signal :=
  ({| q_ := q_ s; stop_requested_ := true; running_ := running_ s |}, notify_all).

(** [pending()]. *)
Definition pending (s : scheduler) : nat := length (q_ s).

(** The predicate handed to [cv_.wait]. *)
Definition wait_pred (s : scheduler) : bool :=
  stop_requested_ s || negb (bool_decide (q_ s = [])).

(** One pass of the critical section of [run()]'s [while (true)] body. *)
Inductive iter :=
| waiting                              (* [cv_.wait] keeps the thread blocked *)
| popped (j : J) (s' : scheduler)      (* [q_.front()] moved out, [pop_front] *)
| leave                                (* [break] *)
| pass.                                (* neither branch: [j.fn] stays empty *)

Definition run_iter (s : scheduler) : iter :=
  if wait_pred s then
    match q_ s with
    | j :: q' => popped j (set_q q' s)
    | [] => if stop_requested_ s then leave else pass
    end
  else waiting.

(** What a job does, as far as the scheduler sees it, while [j.fn()]
    executes: calls of [post] and [stop], and possibly an exception that
    leaves the job; what the body lists after a throw is not reached. *)
Inductive call :=
| call_post (j : J)
| call_stop
| call_throw.

Definition do_call (c : call) (s : scheduler) : scheduler :=
  match c with
  | call_post j => (post j s).1
  | call_stop => (stop s).1
  | call_throw => s
  end.

(** The body of a job, run up to its end or to its first throw; the flag
    tells whether [j.fn()] was left by an exception. *)
Fixpoint do_calls (cs : list call) (s : scheduler) : scheduler * bool :=
  match cs with
  | [] => (s, false)
  | call_throw :: _ => (s, true)
  | c :: cs' => do_calls cs' (do_call c s)
  end.

(** How [run()] ends on a thread nobody else helps: it returns, or it
    sleeps on [cv_] for good, or an exception of the job it was running
    leaves it (there is no [try] around [j.fn()], so [running_ = false]
    is not reached), or the model's fuel ran out. [executed] lists the
    jobs whose [j.fn()] was called. *)
Inductive run_result :=
| returned (s : scheduler) (executed : list J)
| blocked (s : scheduler) (executed : list J)
| thrown (s : scheduler) (executed : list J)
| out_of_fuel (s : scheduler) (executed : list J).

(** [run()] on the loop thread alone; [body j] lists what job [j] does
    when [j.fn()] executes outside the lock. *)
Fixpoint run_loop (body : J → list call) (fuel : nat)
    (s : scheduler) (executed : list J) : run_result :=
  match fuel with
  | O => out_of_fuel s executed
  | S fuel' =>
      match run_iter s with
      | waiting => blocked s executed
      | popped j s' =>
          let '(s'', threw) := do_calls (body j) s' in
          if threw then thrown s'' (executed ++ [j])
          else run_loop body fuel' s'' (executed ++ [j])
      | leave => returned (set_running false s) executed
      | pass => run_loop body fuel' s executed
      end
  end.

Definition run (body : J → list call) (fuel : nat) (s : scheduler) : run_result :=
  run_loop body fuel (set_running true s) [].

(** *** Interleavings

    Every access to [q_] and [stop_requested_] sits in a critical section
    of [m_], so an execution with any number of posting threads is a
    sequence of such sections. *)
Inductive op :=
| op_post (j : J)     (* some thread runs [post(j)] *)
| op_stop             (* some thread runs [stop()] *)
| op_run              (* the loop thread enters [run()] *)
| op_iter             (* the loop thread takes one pass of the loop *)
| op_throw.           (* the job the loop thread is running throws *)

Inductive event :=
| ev_post (j : J)
| ev_stop
| ev_dispatch (j : J)   (* [j] dequeued; [j.fn()] runs before the next pass *)
| ev_return             (* [run()] returns *)
| ev_thrown.            (* [run()] is left by the exception of a job *)

(** Whether the loop thread is inside a call [j.fn()]: the last thing it
    did was to dequeue a job. *)
Definition job_running (t : list event) : bool :=
  foldl (λ b e, match e with
                | ev_dispatch _ => true
                | ev_return | ev_thrown => false
                | ev_post _ | ev_stop => b
                end) false t.

Record world := mk_world {
  sch : scheduler;
  inside : bool;          (* the loop thread is inside [run()] *)
  trace : list event
}.

Definition init_world : world :=
  {| sch := init; inside := false; trace := [] |}.

Definition exec_op (o : op) (w : world) : world :=
  match o with
  | op_post j =>
      {| sch := (post j (sch w)).1; inside := inside w;
         trace := trace w ++ [ev_post j] |}
  | op_stop =>
      {| sch := (stop (sch w)).1; inside := inside w;
         trace := trace w ++ [ev_stop] |}
  | op_run =>
      if inside w then w
      else {| sch := set_running true (sch w); inside := true; trace := trace w |}
  | op_iter =>
      if inside w then
        match run_iter (sch w) with
        | waiting | pass => w
        | popped j s' =>
            {| sch := s'; inside := true; trace := trace w ++ [ev_dispatch j] |}
        | leave =>
            {| sch := set_running false (sch w); inside := false;
               trace := trace w ++ [ev_return] |}
        end
      else w
  | op_throw =>
      if inside w && job_running (trace w) then
        {| sch := sch w; inside := false; trace := trace w ++ [ev_thrown] |}
      else w
  end.

Definition exec (os : list op) (w : world) : world :=
  foldl (λ w o, exec_op o w) w os.

Definition posted_of (e : event) : list J :=
  match e with ev_post j => [j] | _ => [] end.

Definition dispatched_of (e : event) : list J :=
  match e with ev_dispatch j => [j] | _ => [] end.

(** Jobs in the order their posts took the lock. *)
Definition posted (t : list event) : list J := t ≫= posted_of.

(** Jobs in the order the loop thread dequeued and ran them. *)
Definition dispatched (t : list event) : list J := t ≫= dispatched_of.


(** The queue is what was posted and not yet dispatched, in post order;
    [q0] is what the queue held when the trace began. *)
Definition queue_inv (q0 : list J) (w : world) : Prop :=
  q0 ++ posted (trace w) = dispatched (trace w) ++ q_ (sch w).


End queue.

Arguments scheduler : clear implicits.
Arguments iter : clear implicits.
Arguments call : clear implicits.
Arguments run_result : clear implicits.
Arguments op : clear implicits.
Arguments event : clear implicits.
Arguments world : clear implicits.
Arguments init_world : clear implicits.
Arguments init : clear implicits.

(** The closures this runtime posts: the coroutine adapter of
    [post(std::coroutine_handle<>)], [[h]{ if (h) h.resume(); }], and any
    other callable, named by a tag. *)
Inductive closure :=
| resume_handle (h : option nat)
| callable (tag : nat).

(** [post(std::coroutine_handle<> h)]. *)
Definition post_handle (h : option nat) (s : scheduler closure)
    : scheduler closure * cv_signal :=
  post (resume_handle h) s.

(** [schedule_awaitable::await_suspend(h)] over the pointer [s]: with no
    scheduler the handle is resumed in place, else it is posted. *)
Record schedule_effect := mk_schedule_effect {
  resumed_in_place : option nat;
  scheduler_after : option (scheduler closure)
}.

Definition schedule_await_suspend (s : option (scheduler closure))
    (h : option nat) : schedule_effect :=
  match s with
  | None => {| resumed_in_place := h; scheduler_after := None |}
  | Some s' =>
      {| resumed_in_place := None;
         scheduler_after := Some (post_handle h s').1 |}
  end.

(** [schedule()]: [schedule_awaitable{this}]. *)
Definition schedule (s : scheduler closure) : option (scheduler closure) :=
  Some s.

End Scheduler.

(* ------------------------------------------------------------------ *)
(** ** core/task.hpp *)

Module Task.
Import Error.

(** Value category of the expression a call returns; it decides whether
    the consumer's object is built by the copy or the move constructor. *)
Inductive value_category := lvalue | xvalue | prvalue.

Inductive construction := by_copy | by_move.

Definition initialised_from (c : value_category) : construction :=
  match c with
  | lvalue => by_copy
  | xvalue | prvalue => by_move
  end.

(** What [final_awaiter::await_suspend] hands back to the runtime. *)
Inductive next :=
| resume_next (c : nat)
| noop_coroutine.

Section task.
Context {T : Type}.

(** [promise_common] together with [promise_value<T>::value]; for
    [promise_value<void>] the field [value] does not exist and stays [None]. *)
Record promise := mk_promise {
  continuation : option nat;
  exception : exception_ptr;
  detached : bool;
  value : option T
}.

(** A coroutine frame: its promise and whether it sits at its final
    suspension point ([h.done()]). *)
Record frame := mk_frame {
  prom : promise;
  done : bool
}.

Definition new_promise : promise :=
  {| continuation := None; exception := None; detached := false; value := None |}.

(** Calling a coroutine function: a frame at a new address [h], suspended
    at [initial_suspend]. *)
Definition create (h : nat) (σ : gmap nat frame) : gmap nat frame :=
  <[h := {| prom := new_promise; done := false |}]> σ.

Definition set_continuation (c : option nat) (p : promise) : promise :=
  {| continuation := c; exception := exception p;
     detached := detached p; value := value p |}.

Definition set_detached (b : bool) (p : promise) : promise :=
  {| continuation := continuation p; exception := exception p;
     detached := b; value := value p |}.

(** [promise_value<T>::return_value]: [value.emplace(std::forward<U>(v))]. *)
Definition return_value (v : T) (p : promise) : promise :=
  {| continuation := continuation p; exception := exception p;
     detached := detached p; value := Some v |}.

(** [promise_value<void>::return_void]. *)
Definition return_void (p : promise) : promise := p.

(** [unhandled_exception]: [exception = std::current_exception()]. *)
Definition unhandled_exception (e : exn) (p : promise) : promise :=
  {| continuation := continuation p; exception := Some e;
     detached := detached p; value := value p |}.

(** [final_awaiter::await_suspend(h)]; [None] is a call on a destroyed frame. *)
Definition final_await_suspend (h : nat) (σ : gmap nat frame)
    : option (next * gmap nat frame) :=
  match σ !! h with
  | None => None
  | Some fr =>
      match continuation (prom fr) with
      | Some c => Some (resume_next c, σ)
      | None =>
          Some (noop_coroutine, if detached (prom fr) then delete h σ else σ)
      end
  end.

(** The ways a coroutine body ends. *)
Inductive body_exit :=
| co_return_value (v : T)
| co_return_void
| uncaught (e : exn).

Definition complete (x : body_exit) (p : promise) : promise :=
  match x with
  | co_return_value v => return_value v p
  | co_return_void => return_void p
  | uncaught e => unhandled_exception e p
  end.

(** The body of the coroutine at [h] ends by [x]: the promise is
    completed, the coroutine reaches [final_suspend] and the final awaiter
    selects what runs next. *)
Definition finish_body (h : nat) (x : body_exit) (σ : gmap nat frame)
    : option (next * gmap nat frame) :=
  match σ !! h with
  | None => None
  | Some fr =>
      final_await_suspend h (<[h := {| prom := complete x (prom fr); done := true |}]> σ)
  end.

(** *** [task_awaiter] over the handle [h] *)

Definition await_ready (h : option nat) (σ : gmap nat frame) : option bool :=
  match h with
  | None => Some true
  | Some a => done <$> σ !! a
  end.

(** [h.promise().continuation = awaiting; return h;] *)
Definition await_suspend (h : option nat) (awaiting : option nat)
    (σ : gmap nat frame) : option (nat * gmap nat frame) :=
  match h with
  | None => None
  | Some a =>
      match σ !! a with
      | None => None
      | Some fr =>
          Some (a, <[a := {| prom := set_continuation awaiting (prom fr);
                             done := done fr |}]> σ)
      end
  end.

Inductive resumed :=
| rethrow (e : exn)          (* [std::rethrow_exception(p.exception)] *)
| yields (c : value_category) (v : T)
| yields_void.

(** [await_resume()]; [is_void] is the [if constexpr] on the promise type.
    [None]: no frame behind the handle, or the [assert] on [has_value()]
    fails. The value comes back as [std::move( *p.value )]. *)
Definition await_resume (is_void : bool) (h : option nat) (σ : gmap nat frame)
    : option resumed :=
  match h with
  | None => None
  | Some a =>
      match σ !! a with
      | None => None
      | Some fr =>
          match exception (prom fr) with
          | Some e => Some (rethrow e)
          | None =>
              if is_void then Some yields_void
              else match value (prom fr) with
                   | Some v => Some (yields xvalue v)
                   | None => None
                   end
          end
      end
  end.

(** *** [task<T>] objects

    A task object lives at an address and holds [h_]; the frames, the task
    objects and the scheduler make up the state. *)
Record state := mk_state {
  frames : gmap nat frame;
  objects : gmap nat (option nat);
  sched : Scheduler.scheduler Scheduler.closure
}.

(** [valid()]. *)
Definition valid (this : nat) (st : state) : option bool :=
  (λ h : option nat, match h with Some _ => true | None => false end)
    <$> objects st !! this.

(** [handle()]. *)
Definition handle (this : nat) (st : state) : option (option nat) :=
  objects st !! this.

(** [destroy()]: [if (h_) { h_.destroy(); h_ = {}; }]. *)
Definition destroy (this : nat) (st : state) : option state :=
  match objects st !! this with
  | None => None
  | Some None => Some st
  | Some (Some h) =>
      match frames st !! h with
      | None => None
      | Some _ =>
          Some {| frames := delete h (frames st);
                  objects := <[this := None]> (objects st);
                  sched := sched st |}
      end
  end.

(** [~task()]: [destroy()], then the object is gone. *)
Definition destructor (this : nat) (st : state) : option state :=
  match destroy this st with
  | None => None
  | Some st' =>
      Some {| frames := frames st'; objects := delete this (objects st');
              sched := sched st' |}
  end.

(** [task(task &&other)]: a new object at [this] takes [other.h_]. *)
Definition move_construct (this other : nat) (st : state) : option state :=
  match objects st !! other with
  | None => None
  | Some h =>
      Some {| frames := frames st;
              objects := <[other := None]> (<[this := h]> (objects st));
              sched := sched st |}
  end.

(** [operator=(task &&other)]. *)
Definition move_assign (this other : nat) (st : state) : option state :=
  if decide (this = other) then
    match objects st !! this with
    | None => None
    | Some _ => Some st
    end
  else
    match destroy this st with
    | None => None
    | Some st1 =>
        match objects st1 !! other with
        | None => None
        | Some h =>
            Some {| frames := frames st1;
                    objects := <[other := None]> (<[this := h]> (objects st1));
                    sched := sched st1 |}
        end
    end.

(** [start(scheduler &sched) &&]. *)
Definition start (this : nat) (st : state) : option state :=
  match objects st !! this with
  | None => None
  | Some None => Some st
  | Some (Some h) =>
      match frames st !! h with
      | None => None
      | Some fr =>
          Some {| frames := <[h := {| prom := set_detached true (prom fr);
                                      done := done fr |}]> (frames st);
                  objects := <[this := None]> (objects st);
                  sched := (Scheduler.post_handle (Some h) (sched st)).1 |}
      end
  end.

Definition with_frames (σ : gmap nat frame) (st : state) : state :=
  {| frames := σ; objects := objects st; sched := sched st |}.

(** Calling a coroutine function: the frame at [h] and, from
    [get_return_object], the task object at [this] holding it. *)
Definition call_coroutine (this h : nat) (st : state) : state :=
  {| frames := create h (frames st);
     objects := <[this := Some h]> (objects st);
     sched := sched st |}.

(** The coroutine at [h] runs to the end of its body. *)
Definition finish (h : nat) (x : body_exit) (st : state) : option state :=
  match finish_body h x (frames st) with
  | Some (_, σ') => Some (with_frames σ' st)
  | None => None
  end.

(** What a program does with task objects and their coroutines. *)
Inductive action :=
| act_call (this h : nat)
| act_move_construct (this other : nat)
| act_move_assign (this other : nat)
| act_start (this : nat)
| act_destructor (this : nat)
| act_finish (h : nat) (x : body_exit).

Definition perform (a : action) (st : state) : option state :=
  match a with
  | act_call this h => Some (call_coroutine this h st)
  | act_move_construct this other => move_construct this other st
  | act_move_assign this other => move_assign this other st
  | act_start this => start this st
  | act_destructor this => destructor this st
  | act_finish h x => finish h x st
  end.

(** What C++ asks of the action: a constructor builds a new object, the
    other members act on an existing one, a coroutine call allocates a
    new frame, and only a live coroutine can finish. *)
Definition allowed (a : action) (st : state) : Prop :=
  match a with
  | act_call this h => objects st !! this = None ∧ frames st !! h = None
  | act_move_construct this other =>
      objects st !! this = None ∧ is_Some (objects st !! other)
  | act_move_assign this other =>
      is_Some (objects st !! this) ∧ is_Some (objects st !! other)
  | act_start this => is_Some (objects st !! this)
  | act_destructor this => is_Some (objects st !! this)
  | act_finish h x => is_Some (frames st !! h)
  end.

(** Unique ownership: a handle held by a task object points at a live
    frame that is not detached, and no two task objects hold the same
    handle. *)
Definition owned (st : state) : Prop :=
  (∀ a h, objects st !! a = Some (Some h) →
          ∃ fr, frames st !! h = Some fr ∧ detached (prom fr) = false)
  ∧ (∀ a b h, objects st !! a = Some (Some h) →
              objects st !! b = Some (Some h) → a = b).

End task.

Arguments promise : clear implicits.
Arguments frame : clear implicits.
Arguments body_exit : clear implicits.
Arguments resumed : clear implicits.
Arguments state : clear implicits.
Arguments action : clear implicits.

(** [task<void>] has the same members over [promise_value<void>]. *)
Definition void := Empty_set.

End Task.

(* ------------------------------------------------------------------ *)
(** ** core/thread_pool.hpp: the awaitable of [submit(Fn&&, cancel_token)] *)

Module ThreadPool.
Import Error.

(** What a call [fn()] of the submitted closure does. *)
Inductive outcome (R : Type) :=
| returns (r : R)
| throws (e : exn).
Arguments returns {R} r.
Arguments throws {R} e.

(** What the queued job does on the worker thread, in order. *)
Inductive event :=
| ev_call_fn                      (* [fn()] *)
| ev_ctx_post (h : option nat).   (* [pool->ctx_post(h)] *)

Section awaitable.
Context {R : Type}.

(** [struct awaitable]; [store] is [detail::result_store<R>::value], the
    single slot. [result_store<void>] has no slot: where the source
    branches on [std::is_void_v<R>] the functions below take [is_void],
    and with it set the slot is never written or read. *)
Record awaitable := mk_awaitable {
  ct : Cancel.cancel_token;
  fn : unit → outcome R;
  store : option R;
  ex : exception_ptr
}.

(** [awaitable{this, std::move(ct), std::forward<Fn>(fn)}]: the members
    [store{}] and [ex{}] take their defaults. *)
Definition make (t : Cancel.cancel_token) (f : unit → outcome R) : awaitable :=
  {| ct := t; fn := f; store := None; ex := None |}.

Definition await_ready (a : awaitable) : bool := false.

(** [result_store::set]: [value.emplace(std::move(v))]. *)
Definition set (r : R) (a : awaitable) : awaitable :=
  {| ct := ct a; fn := fn a; store := Some r; ex := ex a |}.

Definition set_ex (e : exn) (a : awaitable) : awaitable :=
  {| ct := ct a; fn := fn a; store := store a; ex := Some e |}.

(** The closure [await_suspend(h)] hands to [pool->enqueue], as it runs on
    a worker: the [try] block, the [catch (...)], then [ctx_post(h)]. *)
Definition job (is_void : bool) (σ : Cancel.states) (h : option nat)
    (a : awaitable) : awaitable * list event :=
  let '(a', evs) :=
    if Cancel.token_is_cancelled (ct a) σ then
      (set_ex (system_error Cancel.cancelled_ec) a, [])
    else
      match fn a () with
      | returns r => (if is_void then a else set r a, [ev_call_fn])
      | throws e => (set_ex e a, [ev_call_fn])
      end in
  (a', evs ++ [ev_ctx_post h]).

(** [result_store::take]: [std::move( *value )] into the returned [R]. *)
Definition take (a : awaitable) : option (Task.value_category * R) :=
  (λ r, (Task.xvalue, r)) <$> store a.

(** [await_resume()]; [None]: [take()] on an empty slot. *)
Definition await_resume (is_void : bool) (a : awaitable)
    : option (Task.resumed R) :=
  match ex a with
  | Some e => Some (Task.rethrow e)
  | None =>
      if is_void then Some Task.yields_void
      else match take a with
           | Some (c, r) => Some (Task.yields c r)
           | None => None
           end
  end.

End awaitable.

Arguments awaitable : clear implicits.

End ThreadPool.

(* ------------------------------------------------------------------ *)
(** ** net/asio_await.hpp: [asio_awaitable<Starter, T>] *)

Module Net.
Import Error.

(** What calling [starter(handler)] does: the operation is handed to the
    reactor, which calls [handler] later on the net thread, or the call
    throws. *)
Inductive started :=
| start_ok
| start_throws (e : exn).

Section asio.
Context {T : Type}.

Record asio_result := mk_result {
  ec : error_code;
  value : option T
}.

(** [std::error_code ec{}]: value 0 in the system category. *)
Definition no_error : error_code :=
  {| ec_value := 0; ec_category := "system"%string |}.

Record asio_awaitable := mk_awaitable {
  ct : Cancel.cancel_token;
  starter : started;
  res : asio_result;
  ex : exception_ptr
}.

(** Aggregate initialisation: [res{}] and [ex{}]. *)
Definition make (t : Cancel.cancel_token) (s : started) : asio_awaitable :=
  {| ct := t; starter := s;
     res := {| ec := no_error; value := None |}; ex := None |}.

Definition await_ready (a : asio_awaitable) : bool := false.

(** What [await_suspend] leaves behind: the awaitable, the scheduler of
    [ctx], and whether a reactor operation is now under way. *)
Record suspended := mk_suspended {
  aw : asio_awaitable;
  loop : Scheduler.scheduler Scheduler.closure;
  in_flight : bool
}.

(** [ctx->post([h]() mutable { if (h) h.resume(); })]. *)
Definition ctx_post (h : option nat) (s : Scheduler.scheduler Scheduler.closure)
    : Scheduler.scheduler Scheduler.closure :=
  (Scheduler.post (Scheduler.resume_handle h) s).1.

Definition await_suspend (σ : Cancel.states) (h : option nat)
    (a : asio_awaitable) (s : Scheduler.scheduler Scheduler.closure) : suspended :=
  if Cancel.token_is_cancelled (ct a) σ then
    {| aw := a; loop := ctx_post h s; in_flight := false |}
  else
    match starter a with
    | start_ok => {| aw := a; loop := s; in_flight := true |}
    | start_throws e =>
        {| aw := {| ct := ct a; starter := starter a; res := res a; ex := Some e |};
           loop := ctx_post h s; in_flight := false |}
    end.

(** The completion handler given to [starter], called by the reactor with
    [(ec, args...)]; [arg] is [static_cast<T>(args...)]. *)
Definition handler (h : option nat) (e : error_code) (arg : T)
    (a : asio_awaitable) (s : Scheduler.scheduler Scheduler.closure)
    : asio_awaitable * Scheduler.scheduler Scheduler.closure :=
  ({| ct := ct a; starter := starter a;
      res := {| ec := e; value := if ec_bool e then value (res a) else Some arg |};
      ex := ex a |},
   ctx_post h s).

(** The same handler when [T] is [void]: only [res.ec] is written. *)
Definition handler_void (h : option nat) (e : error_code)
    (a : asio_awaitable) (s : Scheduler.scheduler Scheduler.closure)
    : asio_awaitable * Scheduler.scheduler Scheduler.closure :=
  ({| ct := ct a; starter := starter a;
      res := {| ec := e; value := value (res a) |}; ex := ex a |},
   ctx_post h s).

(** [await_resume()]; [None]: [*res.value] on an empty optional. *)
Definition await_resume (is_void : bool) (σ : Cancel.states)
    (a : asio_awaitable) : option (Task.resumed T) :=
  if Cancel.token_is_cancelled (ct a) σ then
    Some (Task.rethrow (system_error Cancel.cancelled_ec))
  else
    match ex a with
    | Some e => Some (Task.rethrow e)
    | None =>
        if ec_bool (ec (res a)) then Some (Task.rethrow (system_error (ec (res a))))
        else if is_void then Some Task.yields_void
        else match value (res a) with
             | Some v => Some (Task.yields Task.xvalue v)
             | None => None
             end
    end.

End asio.

Arguments asio_result : clear implicits.
Arguments asio_awaitable : clear implicits.
Arguments suspended : clear implicits.

End Net.

(* ------------------------------------------------------------------ *)
(** ** core/spawn.hpp *)

Module Spawn.
Import Error.

(** The frames of [detail::make_detached] coroutines: frame address to
    the address of the parameter [t], a [task<void>] object that lives in
    the frame. The promise of a [detached_task] has no fields. *)
Record state := mk_state {
  tasks : Task.state Task.void;
  dframes : gmap nat nat
}.

(** [make_detached(std::move(t))]: the frame at [dh] is allocated, its
    parameter (at [p]) is move-constructed from the argument, and the
    coroutine stops at [initial_suspend]. *)
Definition make_detached (dh p t : nat) (st : state) : option state :=
  match Task.move_construct p t (tasks st) with
  | None => None
  | Some ts => Some {| tasks := ts; dframes := <[dh := p]> (dframes st) |}
  end.

(** [spawn_detached(ctx, t)]: [ctx.post(dt.h)]; [~detached_task] is
    defaulted and leaves the frame alone. *)
Definition spawn_detached (dh p t : nat) (st : state) : option state :=
  match make_detached dh p t st with
  | None => None
  | Some st1 =>
      Some {| tasks :=
                {| Task.frames := Task.frames (tasks st1);
                   Task.objects := Task.objects (tasks st1);
                   Task.sched :=
                     (Scheduler.post_handle (Some dh) (Task.sched (tasks st1))).1 |};
              dframes := dframes st1 |}
  end.

(** How the body ended, seen from outside: nothing escapes, an exception
    thrown by the awaited task ends in the empty [unhandled_exception]. *)
Inductive ending :=
| returned
| swallowed (e : exn).

(** From the resumption after [co_await t] to the end: [await_resume] of
    the task awaiter, then [co_return] or [unhandled_exception],
    then [final_awaiter::await_suspend] calls [h.destroy()], which ends
    the lifetime of the parameter held in the frame. *)
Definition resume_tail (dh : nat) (st : state) : option (ending * state) :=
  match dframes st !! dh with
  | None => None
  | Some p =>
      match Task.objects (tasks st) !! p with
      | None => None
      | Some held =>
          match Task.await_resume true held (Task.frames (tasks st)) with
          | None => None
          | Some r =>
              match Task.destructor p (tasks st) with
              | None => None
              | Some ts =>
                  Some (match r with
                        | Task.rethrow e => swallowed e
                        | _ => returned
                        end,
                        {| tasks := ts; dframes := delete dh (dframes st) |})
              end
          end
      end
  end.

Inductive entered :=
| transferred (h : nat) (st : state)   (* suspended on [t]; the task at [h] runs *)
| finished (e : ending) (st : state).  (* no suspension, the body ran to its end *)

(** The first resumption of the frame: [co_await t]. *)
Definition enter (dh : nat) (st : state) : option entered :=
  match dframes st !! dh with
  | None => None
  | Some p =>
      match Task.objects (tasks st) !! p with
      | None => None
      | Some held =>
          match Task.await_ready held (Task.frames (tasks st)) with
          | None => None
          | Some true =>
              match resume_tail dh st with
              | Some (e, st') => Some (finished e st')
              | None => None
              end
          | Some false =>
              match Task.await_suspend held (Some dh) (Task.frames (tasks st)) with
              | None => None
              | Some (h, σ') =>
                  Some (transferred h
                          {| tasks := Task.with_frames σ' (tasks st);
                             dframes := dframes st |})
              end
          end
      end
  end.

End Spawn.

(* ------------------------------------------------------------------ *)
(** ** detail/log.hpp *)

Module Log.

Inductive log_level := trace | debug | info | warn | error | fatal | off.

#[global] Instance log_level_eq_dec : EqDecision log_level.
Proof. solve_decision. Defined.

(** [enum class log_level : int], from [trace = 0]. *)
Definition level_value (l : log_level) : Z :=
  match l with
  | trace => 0 | debug => 1 | info => 2 | warn => 3
  | error => 4 | fatal => 5 | off => 6
  end.

Definition to_string (l : log_level) : string :=
  match l with
  | trace => "Trace" | debug => "Debug" | info => "Info" | warn => "Warn"
  | error => "Error" | fatal => "Fatal"
  | off => "Of"
  end%string.

(** [g_log_level{log_level::info}]. *)
Definition g_log_level_init : log_level := info.

Definition set_log_level (lvl : log_level) (g : log_level) : log_level := lvl.

Definition get_log_level (g : log_level) : log_level := g.

(** What one call of [log] does: the line pushed to [std::cerr], if any,
    and whether [std::abort()] is reached. *)
Record emitted := mk_emitted {
  line : option string;
  aborts : bool
}.

Definition newline : string := String (Ascii.ascii_of_nat 10) EmptyString.

(** [log(lvl, msg)] under the level [g]; [buf] is what [strftime] wrote
    for ["%H:%M:%S"]. *)
Definition log (g : log_level) (buf : string) (lvl : log_level) (msg : string)
    : emitted :=
  if level_value lvl <? level_value (get_log_level g) then
    {| line := None; aborts := false |}
  else
    {| line := Some ("[" ++ buf ++ "] " ++ "[" ++ to_string lvl ++ "] "
                     ++ msg ++ newline)%string;
       aborts := bool_decide (lvl = fatal) |}.

End Log.

(* ================================================================== *)
(** * Properties *)

(** ** Scheduler: bookkeeping of the queue *)

Section scheduler_facts.
Import Scheduler.
Context {J : Type}.
Implicit Types (s : scheduler J) (w : world J) (t : list (event J)).



Lemma posted_app t1 t2 : posted (t1 ++ t2) = posted t1 ++ posted t2.
Proof. unfold posted. apply bind_app. Qed.

Lemma dispatched_app t1 t2 : dispatched (t1 ++ t2) = dispatched t1 ++ dispatched t2.
Proof. unfold dispatched. apply bind_app. Qed.

Lemma run_iter_popped s j s' :
  run_iter s = popped j s' →
  q_ s = j :: q_ s' ∧ stop_requested_ s' = stop_requested_ s ∧ running_ s' = running_ s.
Proof.
  unfold run_iter. destruct (wait_pred s); [|done].
  destruct (q_ s) as [|j0 q'] eqn:Hq.
  - by destruct (stop_requested_ s).
  - intros [= <- <-]. done.
Qed.

Lemma run_iter_leave s :
  run_iter s = leave ↔ q_ s = [] ∧ stop_requested_ s = true.
Proof.
  unfold run_iter, wait_pred. split.
  - destruct (stop_requested_ s) eqn:Hs, (q_ s) eqn:Hq; simpl; done.
  - intros [-> ->]. done.
Qed.

Lemma run_iter_nonempty s j q' :
  q_ s = j :: q' → run_iter s = popped j (set_q q' s).
Proof.
  intros Hq. unfold run_iter, wait_pred. rewrite Hq.
  rewrite bool_decide_eq_false_2; [|done].
  by rewrite orb_true_r.
Qed.


Lemma queue_inv_step q0 (o : op J) w :
  queue_inv q0 w → queue_inv q0 (exec_op o w).
Proof.
  unfold queue_inv. intros Hinv. destruct o; simpl.
  - rewrite posted_app, dispatched_app. simpl.
    rewrite !app_nil_r, !app_assoc. by rewrite Hinv.
  - rewrite posted_app, dispatched_app. simpl. by rewrite !app_nil_r.
  - by destruct (inside w).
  - destruct (inside w); [|done].
    destruct (run_iter (sch w)) as [|j s'| |] eqn:Hit; simpl; try done.
    + apply run_iter_popped in Hit as (Hq & _ & _).
      rewrite posted_app, dispatched_app. simpl.
      rewrite app_nil_r, Hinv, Hq, <- app_assoc. done.
    + rewrite posted_app, dispatched_app. simpl. by rewrite !app_nil_r.
  - destruct (inside w && job_running (trace w)); simpl; [|done].
    rewrite posted_app, dispatched_app. simpl. by rewrite !app_nil_r.
Qed.

Lemma queue_inv_exec q0 (os : list (op J)) w :
  queue_inv q0 w → queue_inv q0 (exec os w).
Proof.
  revert w. induction os as [|o os IH]; intros w Hinv; [done|].
  simpl. apply IH. by apply queue_inv_step.
Qed.

Lemma queue_inv_init : queue_inv [] (init_world J).
Proof. done. Qed.

(** Dispatch order is a prefix of post order. *)
Lemma dispatched_prefix_posted (os : list (op J)) :
  posted (trace (exec os (init_world J)))
  = dispatched (trace (exec os (init_world J))) ++ q_ (sch (exec os (init_world J))).
Proof. apply (queue_inv_exec [] os (init_world J) queue_inv_init). Qed.

(** An element that occurs once sits at one place. *)
Lemma NoDup_split_unique {A : Type} (x : A) (l1 l2 k1 k2 : list A) :
  NoDup (l1 ++ x :: l2) → l1 ++ x :: l2 = k1 ++ x :: k2 → l1 = k1 ∧ l2 = k2.
Proof.
  revert k1. induction l1 as [|a l1 IH]; intros k1 Hnd Heq.
  - destruct k1 as [|b k1]; simpl in *.
    + by injection Heq as ->.
    + injection Heq as <- ->. apply NoDup_cons in Hnd as [Hni _].
      exfalso. apply Hni, elem_of_app. right. apply elem_of_cons. by left.
  - destruct k1 as [|b k1]; simpl in *.
    + injection Heq as Ha Hl. subst a. apply NoDup_cons in Hnd as [Hni _].
      exfalso. apply Hni, elem_of_app. right. apply elem_of_cons. by left.
    + injection Heq as <- Heq. apply NoDup_cons in Hnd as [_ Hnd].
      destruct (IH k1 Hnd Heq) as [-> ->]. done.
Qed.

(** Splitting the dispatched jobs splits the trace at the dispatch event. *)
Lemma dispatched_split t (j : J) d1 d2 :
  dispatched t = d1 ++ j :: d2 →
  ∃ t1 t2, t = t1 ++ ev_dispatch j :: t2 ∧ dispatched t1 = d1 ∧ dispatched t2 = d2.
Proof.
  revert d1. induction t as [|e t IH]; intros d1 Heq.
  - by destruct d1.
  - change (dispatched (e :: t)) with (dispatched_of e ++ dispatched t) in Heq.
    destruct e as [j0| |j0| |]; simpl in Heq.
    1,2,4,5: destruct (IH d1 Heq) as (t1 & t2 & -> & <- & <-);
      eexists (_ :: t1), t2; done.
    destruct d1 as [|a d1]; simpl in Heq.
    + injection Heq as -> <-. by exists [], t.
    + injection Heq as <- Heq. destruct (IH d1 Heq) as (t1 & t2 & -> & <- & <-).
      by exists (ev_dispatch j0 :: t1), t2.
Qed.

Lemma posted_elem t (j : J) : j ∈ posted t ↔ ev_post j ∈ t.
Proof.
  unfold posted. rewrite list_elem_of_bind. split.
  - intros (e & Hj & He). destruct e; simpl in Hj;
      try (by apply elem_of_nil in Hj).
    by apply list_elem_of_singleton in Hj as ->.
  - intros He. exists (ev_post j). split; [by apply list_elem_of_singleton | done].
Qed.

Lemma dispatched_elem t (j : J) : j ∈ dispatched t ↔ ev_dispatch j ∈ t.
Proof.
  unfold dispatched. rewrite list_elem_of_bind. split.
  - intros (e & Hj & He). destruct e; simpl in Hj;
      try (by apply elem_of_nil in Hj).
    by apply list_elem_of_singleton in Hj as ->.
  - intros He. exists (ev_dispatch j). split; [by apply list_elem_of_singleton | done].
Qed.

Lemma posted_cons_post (j : J) t : posted (ev_post j :: t) = j :: posted t.
Proof. done. Qed.






(** *** [run()] on its own thread *)


Lemma do_calls_stop (cs : list (call J)) s :
  stop_requested_ s = true → stop_requested_ (do_calls cs s).1 = true.
Proof.
  revert s. induction cs as [|c cs IH]; intros s Hs; [done|].
  destruct c; simpl; [by apply IH | by apply IH | done].
Qed.






(** [n] passes of the loop with nobody else at the lock dequeue the
    first [n] jobs in order. *)
Lemma exec_iters (q rest : list J) w :
  inside w = true →
  q_ (sch w) = q ++ rest →
  exec (replicate (length q) op_iter) w
  = {| sch := set_q rest (sch w); inside := true;
       trace := trace w ++ (ev_dispatch <$> q) |}.
Proof.
  revert w. induction q as [|j q IH]; intros w Hi Hq.
  - simpl in *. destruct w as [[q0 st r] i t]. simpl in *. subst.
    unfold set_q. simpl. by rewrite app_nil_r.
  - simpl. rewrite Hi. simpl in Hq.
    rewrite (run_iter_nonempty _ j (q ++ rest) Hq).
    rewrite IH; [|done..]. simpl.
    unfold set_q. simpl. f_equal. by rewrite <- app_assoc.
Qed.

End scheduler_facts.

(** C4. FIFO dispatch by post order: in every interleaving of posts, stops
    and passes of the [run()] loop, starting from a new scheduler, if the
    post of job [A] took the lock before the post of job [B] and [B] has
    been dequeued, then [A] was dequeued (and so run) before [B]. Jobs are
    told apart by their identity: no job is posted twice. *)
Theorem fifo_dispatch_by_post_order {J : Type} (os : list (Scheduler.op J))
    (A B : J) (t1 t2 t3 : list (Scheduler.event J)) :
  let t := Scheduler.trace (Scheduler.exec os (Scheduler.init_world J)) in
  NoDup (Scheduler.posted t) →
  t = t1 ++ Scheduler.ev_post A :: t2 ++ Scheduler.ev_post B :: t3 →
  Scheduler.ev_dispatch B ∈ t →
  ∃ u1 u2 u3,
    t = u1 ++ Scheduler.ev_dispatch A :: u2 ++ Scheduler.ev_dispatch B :: u3.
Proof.
  intros t Hnd Ht HB.
  pose proof (dispatched_prefix_posted os) as Hp. fold t in Hp.
  apply dispatched_elem, list_elem_of_split in HB as (x & y & Hd).
  assert (Hpt : Scheduler.posted t
                = (Scheduler.posted t1 ++ A :: Scheduler.posted t2)
                  ++ B :: Scheduler.posted t3).
  { rewrite Ht, posted_app, posted_cons_post, posted_app, posted_cons_post.
    by rewrite <- app_assoc. }
  rewrite Hd, <- app_assoc in Hp. simpl in Hp.
  assert (Hx : x = Scheduler.posted t1 ++ A :: Scheduler.posted t2).
  { rewrite Hp in Hnd. rewrite Hp in Hpt.
    by destruct (NoDup_split_unique _ _ _ _ _ Hnd Hpt). }
  rewrite Hx, <- app_assoc in Hd. simpl in Hd.
  apply dispatched_split in Hd as (a1 & a2 & Ha & _ & Hd2).
  apply dispatched_split in Hd2 as (b1 & b2 & -> & _ & _).
  by exists a1, b1, b2.
Qed.

Lemma fifo_dispatch_by_post_order_witness :
  ∃ u1 u2 u3,
    Scheduler.trace
      (Scheduler.exec
         [Scheduler.op_post 1%nat; Scheduler.op_run; Scheduler.op_post 2%nat;
          Scheduler.op_iter; Scheduler.op_stop; Scheduler.op_iter]
         (Scheduler.init_world nat))
    = u1 ++ Scheduler.ev_dispatch 1%nat :: u2 ++ Scheduler.ev_dispatch 2%nat :: u3.
Proof.
  apply (fifo_dispatch_by_post_order
           [Scheduler.op_post 1%nat; Scheduler.op_run; Scheduler.op_post 2%nat;
            Scheduler.op_iter; Scheduler.op_stop; Scheduler.op_iter]
           1%nat 2%nat [] []
           [Scheduler.ev_dispatch 1%nat; Scheduler.ev_stop; Scheduler.ev_dispatch 2%nat]).
  - vm_compute. apply (bool_decide_unpack _). vm_compute. exact I.
  - reflexivity.
  - simpl. do 4 (apply elem_of_cons; right). apply elem_of_cons. by left.
Defined.




(** ** Tasks: promise, final suspension, awaiter *)

Section task_facts.
Import Task.
Context {T : Type}.
Implicit Types (σ : gmap nat (frame T)) (p : promise T) (x : body_exit T).

Lemma complete_continuation x p : continuation (complete x p) = continuation p.
Proof. by destruct x. Qed.

Lemma complete_detached x p : detached (complete x p) = detached p.
Proof. by destruct x. Qed.

(** The frame [finish_body] leaves at the final suspension point. *)
Lemma finish_body_unfold h x σ fr :
  σ !! h = Some fr →
  finish_body h x σ
  = match continuation (prom fr) with
    | Some c =>
        Some (resume_next c, <[h := {| prom := complete x (prom fr); done := true |}]> σ)
    | None =>
        Some (noop_coroutine,
              if detached (prom fr) then delete h σ
              else <[h := {| prom := complete x (prom fr); done := true |}]> σ)
    end.
Proof.
  intros Hh. unfold finish_body, final_await_suspend. rewrite Hh.
  rewrite lookup_insert_eq. simpl.
  rewrite complete_continuation, complete_detached.
  destruct (continuation (prom fr)); [done|].
  destruct (detached (prom fr)); [|done].
  by rewrite delete_insert_eq.
Qed.

End task_facts.

(** C1. The final suspension of a task coroutine that finished its body
    (by [co_return] or by an uncaught exception): with a continuation
    recorded, control goes to that continuation and the frame stays; with
    none and [detached] set, the frame is destroyed; otherwise the frame
    stays suspended at its final point, and the destructor of the task
    object that owns it destroys it. *)
Theorem final_suspension_selects {T : Type} (σ : gmap nat (Task.frame T))
    (h : nat) (fr : Task.frame T) (x : Task.body_exit T) :
  σ !! h = Some fr →
  let at_final := {| Task.prom := Task.complete x (Task.prom fr); Task.done := true |} in
  match Task.continuation (Task.prom fr) with
  | Some c =>
      Task.finish_body h x σ = Some (Task.resume_next c, <[h := at_final]> σ)
  | None =>
      if Task.detached (Task.prom fr) then
        ∃ σ', Task.finish_body h x σ = Some (Task.noop_coroutine, σ')
              ∧ σ' = delete h σ ∧ σ' !! h = None
      else
        Task.finish_body h x σ = Some (Task.noop_coroutine, <[h := at_final]> σ)
        ∧ (<[h := at_final]> σ) !! h = Some at_final
        ∧ ∀ (this : nat) (st : Task.state T),
            Task.frames st = <[h := at_final]> σ →
            Task.objects st !! this = Some (Some h) →
            ∃ st', Task.destructor this st = Some st'
                   ∧ Task.frames st' = delete h σ
                   ∧ Task.frames st' !! h = None
  end.
Proof.
  intros Hh at_final. rewrite (finish_body_unfold h x σ fr Hh).
  destruct (Task.continuation (Task.prom fr)) as [c|]; [done|].
  destruct (Task.detached (Task.prom fr)).
  - eexists. split_and!; [done..|]. apply lookup_delete_eq.
  - split_and!; [done| apply lookup_insert_eq |].
    intros this st Hfr Hobj. unfold Task.destructor, Task.destroy.
    rewrite Hobj, Hfr, lookup_insert_eq. simpl. eexists. split_and!; [done|..].
    + apply delete_insert_eq.
    + apply lookup_delete_eq.
Qed.

Lemma final_suspension_selects_witness :
  Task.finish_body 1%nat (Task.co_return_value 42)
    (<[1%nat := {| Task.prom := Task.set_continuation (Some 2%nat) Task.new_promise;
                  Task.done := false |}]> (∅ : gmap nat (Task.frame Z)))
  = Some (Task.resume_next 2%nat,
          <[1%nat := {| Task.prom :=
                         Task.complete (Task.co_return_value 42)
                           (Task.set_continuation (Some 2%nat) Task.new_promise);
                       Task.done := true |}]>
            (<[1%nat := {| Task.prom := Task.set_continuation (Some 2%nat) Task.new_promise;
                           Task.done := false |}]> ∅)).
Proof.
  apply (final_suspension_selects
           (<[1%nat := {| Task.prom := Task.set_continuation (Some 2%nat) Task.new_promise;
                          Task.done := false |}]> ∅)
           1%nat
           {| Task.prom := Task.set_continuation (Some 2%nat) Task.new_promise;
              Task.done := false |}
           (Task.co_return_value 42)).
  reflexivity.
Defined.

(** C2. Awaiting a task whose frame is at [h] from the coroutine [c]:
    [await_suspend] records [c] and enters the task; when the body ends,
    the final suspension hands control back to [c] and [await_resume]
    runs once. If the body ended by the uncaught exception [F], that call
    rethrows [F]; if it ended by [co_return v] ([T] not void, nothing
    thrown), the call yields the value [return_value] stored, as the
    xvalue [std::move( *p.value )], from which the consumer's object is
    move-constructed, not copied. *)
Theorem await_resume_rethrows_or_moves {T : Type} (σ : gmap nat (Task.frame T))
    (h c : nat) (fr : Task.frame T) (x : Task.body_exit T) :
  σ !! h = Some fr →
  ∃ σ1 σ2,
    Task.await_suspend (Some h) (Some c) σ = Some (h, σ1)
    ∧ Task.finish_body h x σ1 = Some (Task.resume_next c, σ2)
    ∧ match x with
      | Task.uncaught F =>
          ∀ is_void, Task.await_resume is_void (Some h) σ2 = Some (Task.rethrow F)
      | Task.co_return_value v =>
          Task.exception (Task.prom fr) = None →
          Task.value <$> (Task.prom <$> σ2 !! h) = Some (Some v)
          ∧ Task.await_resume false (Some h) σ2 = Some (Task.yields Task.xvalue v)
          ∧ Task.initialised_from Task.xvalue = Task.by_move
      | Task.co_return_void =>
          Task.exception (Task.prom fr) = None →
          Task.await_resume true (Some h) σ2 = Some Task.yields_void
      end.
Proof.
  intros Hh. unfold Task.await_suspend. rewrite Hh.
  eexists _, _. split; [done|].
  erewrite finish_body_unfold; [|apply lookup_insert_eq]. simpl.
  split; [done|].
  unfold Task.await_resume. rewrite lookup_insert_eq.
  destruct x as [v| |F]; simpl; [intros Hex..|]; rewrite ?Hex; done.
Qed.

Lemma await_resume_rethrows_or_moves_witness :
  ∃ σ1 σ2,
    Task.await_suspend (Some 1%nat) (Some 2%nat) (Task.create 1%nat ∅) = Some (1%nat, σ1)
    ∧ Task.finish_body 1%nat (Task.uncaught (Error.other_error "boom")) σ1
      = Some (Task.resume_next 2%nat, σ2)
    ∧ ∀ is_void,
        Task.await_resume (T := Task.void) is_void (Some 1%nat) σ2
        = Some (Task.rethrow (Error.other_error "boom")).
Proof.
  apply (await_resume_rethrows_or_moves (Task.create 1%nat ∅) 1%nat 2%nat
           {| Task.prom := Task.new_promise; Task.done := false |}
           (Task.uncaught (Error.other_error "boom"))).
  reflexivity.
Defined.

(** C6. [start(sched)] on a valid task: the promise of its frame gets
    [detached = true], the adapter resuming its handle goes to the tail of
    the scheduler's queue, and the task is left empty. The destructor of
    the emptied task leaves every frame in place. The started coroutine,
    which nobody awaits, destroys its own frame at its final suspension. *)
Theorem start_releases_ownership {T : Type} (st : Task.state T)
    (this h : nat) (fr : Task.frame T) :
  Task.objects st !! this = Some (Some h) →
  Task.frames st !! h = Some fr →
  ∃ st',
    Task.start this st = Some st'
    ∧ Task.frames st'
      = <[h := {| Task.prom := Task.set_detached true (Task.prom fr);
                  Task.done := Task.done fr |}]> (Task.frames st)
    ∧ (Task.detached <$> (Task.prom <$> Task.frames st' !! h)) = Some true
    ∧ Scheduler.q_ (Task.sched st')
      = Scheduler.q_ (Task.sched st) ++ [Scheduler.resume_handle (Some h)]
    ∧ Task.valid this st' = Some false
    ∧ (∃ st'', Task.destructor this st' = Some st''
               ∧ Task.frames st'' = Task.frames st'
               ∧ is_Some (Task.frames st'' !! h))
    ∧ (Task.continuation (Task.prom fr) = None →
       ∀ x, ∃ σ', Task.finish_body h x (Task.frames st')
                  = Some (Task.noop_coroutine, σ')
                  ∧ σ' !! h = None).
Proof.
  intros Hobj Hfr. unfold Task.start. rewrite Hobj, Hfr.
  eexists. split; [done|]. simpl. split_and!.
  - done.
  - by rewrite lookup_insert_eq.
  - done.
  - unfold Task.valid. simpl. by rewrite lookup_insert_eq.
  - unfold Task.destructor, Task.destroy. simpl. rewrite lookup_insert_eq.
    eexists. split_and!; [done..|]. simpl. rewrite lookup_insert_eq. by eexists.
  - intros Hc x. erewrite finish_body_unfold; [|apply lookup_insert_eq].
    simpl. rewrite Hc. eexists. split; [done|]. apply lookup_delete_eq.
Qed.

Lemma start_releases_ownership_witness :
  ∃ st',
    Task.start (T := Z) 10%nat
      {| Task.frames := Task.create 1%nat ∅;
         Task.objects := <[10%nat := Some 1%nat]> ∅;
         Task.sched := Scheduler.init Scheduler.closure |} = Some st'
    ∧ Task.valid 10%nat st' = Some false
    ∧ Scheduler.q_ (Task.sched st') = [Scheduler.resume_handle (Some 1%nat)].
Proof.
  destruct (start_releases_ownership (T := Z)
              {| Task.frames := Task.create 1%nat ∅;
                 Task.objects := <[10%nat := Some 1%nat]> ∅;
                 Task.sched := Scheduler.init Scheduler.closure |}
              10%nat 1%nat {| Task.prom := Task.new_promise; Task.done := false |})
    as (st' & Hs & _ & _ & Hq & Hv & _).
  - reflexivity.
  - reflexivity.
  - exists st'. split_and!; [exact Hs | exact Hv | exact Hq].
Defined.

(** C10. Move assignment [a = std::move(b)] between two distinct task
    objects: the frame [a] owned, if any, is destroyed first; then [a]
    holds the handle [b] held and [b] is left empty. A frame that [b]
    owned and [a] did not is untouched; no other task object and nothing
    in the scheduler changes. Assigning a task to itself changes nothing. *)
Theorem move_assign_destroys_then_takes {T : Type} (st : Task.state T)
    (a b : nat) (ha hb : option nat) :
  Task.objects st !! a = Some ha →
  Task.objects st !! b = Some hb →
  (∀ h, ha = Some h → is_Some (Task.frames st !! h)) →
  (a ≠ b →
   ∃ st',
     Task.move_assign a b st = Some st'
     ∧ Task.frames st'
       = match ha with
         | Some h => delete h (Task.frames st)
         | None => Task.frames st
         end
     ∧ Task.objects st' !! a = Some hb
     ∧ Task.objects st' !! b = Some None
     ∧ Task.valid b st' = Some false
     ∧ (∀ h', hb = Some h' → ha ≠ Some h' →
          Task.frames st' !! h' = Task.frames st !! h')
     ∧ (∀ c, c ≠ a → c ≠ b → Task.objects st' !! c = Task.objects st !! c)
     ∧ Task.sched st' = Task.sched st)
  ∧ Task.move_assign a a st = Some st.
Proof.
  intros Ha Hb Hlive. split.
  - intros Hab. unfold Task.move_assign.
    rewrite decide_False; [|done].
    unfold Task.destroy. rewrite Ha.
    destruct ha as [h|].
    + destruct (Hlive h eq_refl) as [fr Hfr]. rewrite Hfr. simpl.
      rewrite lookup_insert_ne, Hb; [|done].
      eexists. split; [done|]. simpl. split_and!.
      * done.
      * rewrite lookup_insert_ne; [|done]. apply lookup_insert_eq.
      * apply lookup_insert_eq.
      * unfold Task.valid. simpl. by rewrite lookup_insert_eq.
      * intros h' _ Hne. apply lookup_delete_ne. congruence.
      * intros c Hca Hcb. by rewrite !lookup_insert_ne.
      * done.
    + rewrite Hb. eexists. split; [done|]. simpl. split_and!.
      * done.
      * rewrite lookup_insert_ne; [|done]. apply lookup_insert_eq.
      * apply lookup_insert_eq.
      * unfold Task.valid. simpl. by rewrite lookup_insert_eq.
      * done.
      * intros c Hca Hcb. by rewrite !lookup_insert_ne.
      * done.
  - unfold Task.move_assign. rewrite decide_True; [|done]. by rewrite Ha.
Qed.

Lemma move_assign_destroys_then_takes_witness :
  ∃ st',
    Task.move_assign (T := Z) 10%nat 20%nat
      {| Task.frames := Task.create 1%nat (Task.create 2%nat ∅);
         Task.objects := <[10%nat := Some 1%nat]> (<[20%nat := Some 2%nat]> ∅);
         Task.sched := Scheduler.init Scheduler.closure |} = Some st'
    ∧ Task.frames st' = delete 1%nat (Task.create 1%nat (Task.create 2%nat ∅))
    ∧ Task.objects st' !! 10%nat = Some (Some 2%nat)
    ∧ Task.objects st' !! 20%nat = Some None.
Proof.
  destruct (move_assign_destroys_then_takes (T := Z)
              {| Task.frames := Task.create 1%nat (Task.create 2%nat ∅);
                 Task.objects := <[10%nat := Some 1%nat]> (<[20%nat := Some 2%nat]> ∅);
                 Task.sched := Scheduler.init Scheduler.closure |}
              10%nat 20%nat (Some 1%nat) (Some 2%nat))
    as [H _].
  - reflexivity.
  - reflexivity.
  - intros h [= <-]. eexists. reflexivity.
  - destruct H as (st' & Hm & Hf & Hoa & Hob & _); [lia|].
    exists st'. split_and!; [exact Hm | exact Hf | exact Hoa | exact Hob].
Defined.

(** ** Cancellation *)

Section cancel_facts.
Import Cancel.
Implicit Types (σ : gmap nat bool).

Lemma make_shared_fresh σ : σ !! (make_shared σ).1 = None.
Proof. simpl. apply not_elem_of_dom, is_fresh. Qed.

Lemma new_source_not_cancelled σ :
  source_is_cancelled (new_source σ).1 (new_source σ).2 = false.
Proof.
  unfold source_is_cancelled, new_source, make_shared, state_is_cancelled. simpl.
  by rewrite lookup_insert_eq.
Qed.

(** No call of the header turns a set flag off. *)
Lemma step_keeps_cancelled (c : call) l σ :
  state_is_cancelled l σ = true → state_is_cancelled l (step c σ) = true.
Proof.
  unfold state_is_cancelled. intros Hl.
  destruct c as [|s|s|s|t|t]; simpl; try done.
  - destruct (decide (l = fresh (dom σ))) as [->|Hne].
    + pose proof (make_shared_fresh σ) as Hf. simpl in Hf. by rewrite Hf in Hl.
    + by rewrite lookup_insert_ne.
  - unfold request_cancel, state_request_cancel.
    destruct (src_st_ s) as [l'|]; [|done].
    destruct (decide (l = l')) as [->|Hne].
    + by rewrite lookup_insert_eq.
    + by rewrite lookup_insert_ne.
Qed.

Lemma run_calls_keep_cancelled (cs : list call) l σ :
  state_is_cancelled l σ = true → state_is_cancelled l (run_calls cs σ) = true.
Proof.
  revert σ. induction cs as [|c cs IH]; intros σ Hl; [done|].
  simpl. apply IH. by apply step_keeps_cancelled.
Qed.

Lemma request_cancel_sets l σ :
  state_is_cancelled l (state_request_cancel l σ) = true.
Proof. unfold state_is_cancelled, state_request_cancel. by rewrite lookup_insert_eq. Qed.

End cancel_facts.

(** tests/core/cancel_smoke_test.cpp, [test_default_token]. *)
Example test_default_token (σ : gmap nat bool) :
  Cancel.can_cancel Cancel.empty_token = false
  ∧ Cancel.token_is_cancelled Cancel.empty_token σ = false.
Proof. done. Qed.

(** tests/core/cancel_smoke_test.cpp, [test_cancel_flow]. *)
Example test_cancel_flow :
  let src := (Cancel.new_source ∅).1 in
  let σ0 := (Cancel.new_source ∅).2 in
  let ct := Cancel.token src in
  let σ1 := Cancel.request_cancel src σ0 in
  Cancel.can_cancel ct = true
  ∧ Cancel.token_is_cancelled ct σ0 = false
  ∧ Cancel.source_is_cancelled src σ0 = false
  ∧ Cancel.token_is_cancelled ct σ1 = true
  ∧ Cancel.source_is_cancelled src σ1 = true.
Proof. done. Qed.

(** C7. The shared flag only goes from false to true. A new source and
    the tokens it hands out report not cancelled. Once [request_cancel()]
    on a source has returned, then after any further calls of the header
    (new sources, further requests, observations), the source and every
    token holding the same state report cancelled; and no single call
    turns a set flag off. *)
Theorem cancellation_monotonic (σ : gmap nat bool) :
  (Cancel.source_is_cancelled (Cancel.new_source σ).1 (Cancel.new_source σ).2 = false
   ∧ Cancel.token_is_cancelled (Cancel.token (Cancel.new_source σ).1)
       (Cancel.new_source σ).2 = false
   ∧ Cancel.can_cancel (Cancel.token (Cancel.new_source σ).1) = true)
  ∧ (∀ (src : Cancel.cancel_source) (l : nat) (cs : list Cancel.call),
       Cancel.src_st_ src = Some l →
       let σ' := Cancel.run_calls cs (Cancel.request_cancel src σ) in
       Cancel.source_is_cancelled src σ' = true
       ∧ Cancel.token_is_cancelled (Cancel.token src) σ' = true
       ∧ ∀ t, Cancel.tok_st_ t = Some l → Cancel.token_is_cancelled t σ' = true)
  ∧ (∀ (c : Cancel.call) (l : nat),
       Cancel.state_is_cancelled l σ = true →
       Cancel.state_is_cancelled l (Cancel.step c σ) = true).
Proof.
  split_and!.
  - apply new_source_not_cancelled.
  - apply (new_source_not_cancelled σ).
  - done.
  - intros src l cs Hsrc σ'.
    assert (Hl : Cancel.state_is_cancelled l σ' = true).
    { apply run_calls_keep_cancelled. unfold Cancel.request_cancel.
      rewrite Hsrc. apply request_cancel_sets. }
    unfold Cancel.source_is_cancelled, Cancel.token_is_cancelled, Cancel.token.
    simpl. rewrite Hsrc. split_and!; [done..|].
    intros t ->. done.
  - intros c l. apply step_keeps_cancelled.
Qed.

Lemma cancellation_monotonic_witness :
  Cancel.token_is_cancelled (Cancel.token (Cancel.new_source ∅).1)
    (Cancel.run_calls
       [Cancel.call_new_source; Cancel.call_request_cancel (Cancel.new_source ∅).1;
        Cancel.call_new_source]
       (Cancel.request_cancel (Cancel.new_source ∅).1 (Cancel.new_source ∅).2))
  = true.
Proof.
  destruct (cancellation_monotonic (Cancel.new_source ∅).2) as (_ & H & _).
  destruct (H (Cancel.new_source ∅).1 (fresh (dom (∅ : gmap nat bool)))
              [Cancel.call_new_source; Cancel.call_request_cancel (Cancel.new_source ∅).1;
               Cancel.call_new_source]) as (_ & Ht & _).
  - reflexivity.
  - exact Ht.
Defined.

(** ** Thread pool and network awaitables *)

(** X15. [asio_awaitable::await_suspend] hands the coroutine back
    through the scheduler once on every path. An operation is under way
    exactly when the token is not cancelled and the starter did not
    throw; then [await_suspend] leaves the awaitable and the scheduler as
    they are, and a call of the completion handler appends the adapter
    resuming [h] to the queue, touching nothing else of the scheduler.
    Otherwise [await_suspend] itself appends that adapter, once, and the
    awaitable changes only by the exception captured from the starter. *)
Lemma net_completion_posts_handle {T : Type} (σ : gmap nat bool) (h : option nat)
    (a : Net.asio_awaitable T) (s : Scheduler.scheduler Scheduler.closure) :
  let r := Net.await_suspend σ h a s in
  (Net.in_flight r = true
   ↔ Cancel.token_is_cancelled (Net.ct a) σ = false
     ∧ Net.starter a = Net.start_ok)
  ∧ (Cancel.token_is_cancelled (Net.ct a) σ = false →
     Net.starter a = Net.start_ok →
     Net.loop r = s ∧ Net.aw r = a
     ∧ (∀ e v s', (Net.handler h e v (Net.aw r) s').2
                  = Scheduler.set_q (Scheduler.q_ s' ++ [Scheduler.resume_handle h]) s')
     ∧ (∀ e s', (Net.handler_void h e (Net.aw r) s').2
                = Scheduler.set_q (Scheduler.q_ s' ++ [Scheduler.resume_handle h]) s'))
  ∧ (Cancel.token_is_cancelled (Net.ct a) σ = true →
     Net.loop r = Scheduler.set_q (Scheduler.q_ s ++ [Scheduler.resume_handle h]) s
     ∧ Net.aw r = a)
  ∧ (Cancel.token_is_cancelled (Net.ct a) σ = false →
     ∀ e, Net.starter a = Net.start_throws e →
          Net.loop r = Scheduler.set_q (Scheduler.q_ s ++ [Scheduler.resume_handle h]) s
          ∧ Net.ex (Net.aw r) = Some e
          ∧ Net.ct (Net.aw r) = Net.ct a
          ∧ Net.res (Net.aw r) = Net.res a).
Proof.
  unfold Net.await_suspend. split_and!.
  - destruct (Cancel.token_is_cancelled (Net.ct a) σ); simpl.
    + split; [done | by intros [? _]].
    + destruct (Net.starter a); simpl; split; try done. by intros [_ ?].
  - by intros -> ->.
  - by intros ->.
  - by intros -> e ->.
Qed.

Lemma net_completion_posts_handle_witness :
  Scheduler.q_
    (Net.loop
       (Net.await_suspend (T := Z) ∅ (Some 3%nat)
          (Net.make Cancel.empty_token
             (Net.start_throws (Error.other_error "bad descriptor")))
          (Scheduler.init Scheduler.closure)))
  = [Scheduler.resume_handle (Some 3%nat)].
Proof.
  destruct (net_completion_posts_handle (T := Z) ∅ (Some 3%nat)
              (Net.make Cancel.empty_token
                 (Net.start_throws (Error.other_error "bad descriptor")))
              (Scheduler.init Scheduler.closure)) as (_ & _ & _ & H).
  destruct (H eq_refl (Error.other_error "bad descriptor") eq_refl) as [-> _].
  reflexivity.
Defined.

(** After the handler ran with an ok code the value is there, so
    [await_resume] never reads an empty optional. *)
Lemma net_handler_then_resume {T : Type} (σ : gmap nat bool) (h : option nat)
    (t : Cancel.cancel_token) (e : Error.error_code) (v : T)
    (s : Scheduler.scheduler Scheduler.closure) :
  Cancel.token_is_cancelled t σ = false →
  Net.await_resume false σ (Net.handler h e v (Net.make t Net.start_ok) s).1
  = if Error.ec_bool e then Some (Task.rethrow (Error.system_error e))
    else Some (Task.yields Task.xvalue v).
Proof.
  intros Hc. unfold Net.await_resume, Net.handler, Net.make. simpl.
  rewrite Hc. by destruct (Error.ec_bool e).
Qed.

(** C8. The job [await_suspend] queues for [submit(f, t)], when a worker
    runs it: with [t] cancelled, [f] is not called and a [system_error]
    of the canceled kind is stored; otherwise [f] is called once and its
    value goes into the single slot (nothing is kept for a void job), or
    its exception is captured. In both cases the job ends by
    [ctx_post(h)], and [await_resume] rethrows what was captured or
    yields the stored value, moved out. *)
Theorem pool_job_cancelled_or_run {R : Type} (is_void : bool) (σ : gmap nat bool)
    (t : Cancel.cancel_token) (f : unit → ThreadPool.outcome R) (h : option nat) :
  let a := (ThreadPool.job is_void σ h (ThreadPool.make t f)).1 in
  let evs := (ThreadPool.job is_void σ h (ThreadPool.make t f)).2 in
  if Cancel.token_is_cancelled t σ then
    evs = [ThreadPool.ev_ctx_post h]
    ∧ (ThreadPool.ev_call_fn ∉ evs)
    ∧ ThreadPool.ex a
      = Some (Error.system_error (Error.make_error_code Error.canceled))
    ∧ ThreadPool.store a = None
    ∧ ThreadPool.await_resume is_void a
      = Some (Task.rethrow (Error.system_error (Error.make_error_code Error.canceled)))
  else
    evs = [ThreadPool.ev_call_fn; ThreadPool.ev_ctx_post h]
    ∧ match f () with
      | ThreadPool.returns r =>
          ThreadPool.ex a = None
          ∧ if is_void then
              ThreadPool.await_resume is_void a = Some Task.yields_void
            else
              ThreadPool.store a = Some r
              ∧ ThreadPool.await_resume is_void a = Some (Task.yields Task.xvalue r)
              ∧ Task.initialised_from Task.xvalue = Task.by_move
      | ThreadPool.throws e =>
          ThreadPool.store a = None ∧ ThreadPool.ex a = Some e
          ∧ ThreadPool.await_resume is_void a = Some (Task.rethrow e)
      end.
Proof.
  intros a evs. subst a evs. unfold ThreadPool.job, ThreadPool.make. simpl.
  destruct (Cancel.token_is_cancelled t σ).
  - simpl. split_and!; try done.
    intros H%list_elem_of_singleton. done.
  - destruct (f ()) as [r|e]; simpl; [|done].
    destruct is_void; done.
Qed.

Lemma pool_job_cancelled_or_run_witness :
  ThreadPool.await_resume false
    (ThreadPool.job false
       (Cancel.request_cancel (Cancel.new_source ∅).1 (Cancel.new_source ∅).2)
       (Some 5%nat)
       (ThreadPool.make (Cancel.token (Cancel.new_source ∅).1)
          (λ _, ThreadPool.returns 99))).1
  = Some (Task.rethrow (Error.system_error (Error.make_error_code Error.canceled))).
Proof.
  pose proof (pool_job_cancelled_or_run false
                (Cancel.request_cancel (Cancel.new_source ∅).1 (Cancel.new_source ∅).2)
                (Cancel.token (Cancel.new_source ∅).1)
                (λ _, ThreadPool.returns 99) (Some 5%nat)) as H.
  cbv zeta in H.
  change (Cancel.token_is_cancelled _ _) with true in H at 1.
  destruct H as (_ & _ & _ & _ & H). exact H.
Defined.

(** C9. [asio_awaitable::await_resume] decides in a fixed order:
    cancellation seen on the token wins over everything; then an
    exception captured while starting the operation; then a non-ok error
    code from the reactor, thrown as a [system_error] with that code;
    only then the stored value (nothing for a void operation). *)
Theorem net_await_resume_priority {T : Type} (is_void : bool)
    (σ : gmap nat bool) (a : Net.asio_awaitable T) :
  (Cancel.token_is_cancelled (Net.ct a) σ = true →
   Net.await_resume is_void σ a
   = Some (Task.rethrow (Error.system_error (Error.make_error_code Error.canceled))))
  ∧ (Cancel.token_is_cancelled (Net.ct a) σ = false →
     ∀ e, Net.ex a = Some e →
          Net.await_resume is_void σ a = Some (Task.rethrow e))
  ∧ (Cancel.token_is_cancelled (Net.ct a) σ = false →
     Net.ex a = None →
     Error.ec_bool (Net.ec (Net.res a)) = true →
     Net.await_resume is_void σ a
     = Some (Task.rethrow (Error.system_error (Net.ec (Net.res a)))))
  ∧ (Cancel.token_is_cancelled (Net.ct a) σ = false →
     Net.ex a = None →
     Error.ec_bool (Net.ec (Net.res a)) = false →
     if is_void then Net.await_resume is_void σ a = Some Task.yields_void
     else ∀ v, Net.value (Net.res a) = Some v →
               Net.await_resume is_void σ a = Some (Task.yields Task.xvalue v)).
Proof.
  unfold Net.await_resume. split_and!.
  - by intros ->.
  - by intros -> e ->.
  - by intros -> -> ->.
  - intros -> -> ->. destruct is_void; [done|]. by intros v ->.
Qed.

Lemma net_await_resume_priority_witness :
  Net.await_resume (T := Z) false
    (Cancel.request_cancel (Cancel.new_source ∅).1 (Cancel.new_source ∅).2)
    {| Net.ct := Cancel.token (Cancel.new_source ∅).1;
       Net.starter := Net.start_throws (Error.other_error "bad descriptor");
       Net.res := {| Net.ec := {| Error.ec_value := 104;
                                  Error.ec_category := "system" |};
                     Net.value := Some 7 |};
       Net.ex := Some (Error.other_error "bad descriptor") |}
  = Some (Task.rethrow (Error.system_error (Error.make_error_code Error.canceled))).
Proof.
  destruct (net_await_resume_priority (T := Z) false
           (Cancel.request_cancel (Cancel.new_source ∅).1 (Cancel.new_source ∅).2)
           {| Net.ct := Cancel.token (Cancel.new_source ∅).1;
              Net.starter := Net.start_throws (Error.other_error "bad descriptor");
              Net.res := {| Net.ec := {| Error.ec_value := 104;
                                         Error.ec_category := "system" |};
                            Net.value := Some 7 |};
              Net.ex := Some (Error.other_error "bad descriptor") |}) as [H _].
  apply H. reflexivity.
Defined.

(* ================================================================== *)
(** * Further properties of the code *)

(** ** Error codes and log levels *)

(** X1. [error_category::message] looks only at the low byte of its
    argument, because the [int] is cast to the one-byte enumeration
    before the [switch]: codes 256 apart get the same text, and the text
    is "unknown error" exactly when the low byte is above 10. *)
Theorem message_reads_low_byte (c : Z) :
  Error.message (c + 256) = Error.message c
  ∧ (Error.message c = "unknown error"%string ↔ 10 < c mod 256).
Proof.
  unfold Error.message, Error.errc_cast.
  replace (c + 256) with (c + 1 * 256) by lia. rewrite Z_mod_plus_full.
  split; [done|].
  pose proof (Z.mod_pos_bound c 256 ltac:(lia)) as Hn.
  set (n := c mod 256) in *. clearbody n.
  destruct (decide (n ≤ 10)) as [Hle|Hgt].
  - assert (n = 0 ∨ n = 1 ∨ n = 2 ∨ n = 3 ∨ n = 4 ∨ n = 5 ∨ n = 6 ∨ n = 7
            ∨ n = 8 ∨ n = 9 ∨ n = 10) as Hc by lia.
    repeat destruct Hc as [->|Hc]; try subst n; simpl; split; (done || lia).
  - split; [lia|]. intros _.
    destruct n as [|p|p]; [lia| |lia].
    do 4 (try destruct p as [p|p|]); try lia; done.
Qed.

Lemma message_reads_low_byte_witness :
  Error.message 300 = "unknown error"%string ∧ Error.message 260 = Error.message 4.
Proof.
  split.
  - destruct (message_reads_low_byte 300) as [_ H]. apply H. reflexivity.
  - destruct (message_reads_low_byte 4) as [H _]. exact H.
Defined.

(** X2. The numeric value of an enumerator, as [make_error_code] stores
    it, casts back to the same enumerator, so its message is the text of
    that enumerator; the eleven texts differ from one another and from
    "unknown error"; and [ok] is the only enumerator whose error code
    tests false. *)
Theorem errc_round_trip (e : Error.errc) :
  Error.errc_cast (Error.ec_value (Error.make_error_code e)) = Some e
  ∧ Error.message (Error.ec_value (Error.make_error_code e)) = Error.errc_message e
  ∧ (∀ e', Error.errc_message e = Error.errc_message e' → e = e')
  ∧ Error.errc_message e ≠ "unknown error"%string
  ∧ (Error.ec_bool (Error.make_error_code e) = false ↔ e = Error.ok).
Proof.
  split_and!.
  - by destruct e.
  - by destruct e.
  - intros e'. destruct e, e'; simpl; done.
  - by destruct e.
  - destruct e; simpl; split; done.
Qed.

Lemma errc_round_trip_witness :
  Error.message 4 = "canceled"%string ∧ Error.canceled = Error.canceled.
Proof.
  destruct (errc_round_trip Error.canceled) as (_ & Hm & H & _).
  split; [exact Hm|]. apply (H Error.canceled). reflexivity.
Defined.

(** X3. [log] writes a line exactly when the level of the message is not
    below the current level, and reaches [std::abort()] exactly for a
    [fatal] message that is written, that is unless the current level is
    [off]: turning logging off also turns the abort off. *)
Theorem log_threshold (g lvl : Log.log_level) (buf msg : string) :
  (is_Some (Log.line (Log.log g buf lvl msg))
   ↔ Log.level_value g ≤ Log.level_value lvl)
  ∧ (Log.aborts (Log.log g buf lvl msg) = true
     ↔ lvl = Log.fatal ∧ g ≠ Log.off).
Proof.
  unfold Log.log, Log.get_log_level.
  destruct (Z.ltb_spec (Log.level_value lvl) (Log.level_value g)) as [Hlt|Hge];
    simpl.
  - split.
    + split; [by intros [? ?] | lia].
    + split; [done|]. intros [-> Hg]. destruct g; simpl in Hlt; (done || lia).
  - split.
    + split; [done | by eexists].
    + rewrite bool_decide_eq_true. split.
      * intros ->. split; [done|]. intros ->. simpl in Hge. lia.
      * by intros [-> _].
Qed.

Lemma log_threshold_witness :
  Log.aborts (Log.log Log.info "12:00:00" Log.fatal "disk gone") = true.
Proof.
  destruct (log_threshold Log.info Log.fatal "12:00:00" "disk gone") as [_ H].
  apply H. split; [reflexivity | discriminate].
Defined.

(** ** Scheduler *)

Section scheduler_more.
Import Scheduler.
Context {J : Type}.
Implicit Types (s : scheduler J) (w : world J).

Lemma do_calls_no_stop (cs : list (call J)) s :
  call_stop ∉ cs → stop_requested_ (do_calls cs s).1 = stop_requested_ s.
Proof.
  revert s. induction cs as [|c cs IH]; intros s Hni; [done|].
  destruct c; simpl.
  - rewrite IH; [done|]. intros Hin. apply Hni. by right.
  - exfalso. apply Hni. by left.
  - done.
Qed.

Lemma run_loop_needs_stop (body : J → list (call J)) fuel s executed s' executed' :
  stop_requested_ s = false →
  (∀ j, call_stop ∉ body j) →
  run_loop body fuel s executed ≠ returned s' executed'.
Proof.
  intros Hs Hbody. revert s executed Hs.
  induction fuel as [|fuel IH]; intros s executed Hs; [done|].
  simpl. destruct (run_iter s) as [|j s1| |] eqn:Hit; try done.
  - pose proof (do_calls_no_stop (body j) s1 (Hbody j)) as Hns.
    destruct (do_calls (body j) s1) as [s2 [|]]; [done|]. simpl in Hns.
    apply IH. rewrite Hns.
    apply run_iter_popped in Hit as (_ & -> & _). done.
  - apply run_iter_leave in Hit as [_ Hst]. congruence.
  - by apply IH.
Qed.

Lemma run_loop_stopped_not_blocked (body : J → list (call J)) fuel s executed
    s' executed' :
  stop_requested_ s = true →
  run_loop body fuel s executed ≠ blocked s' executed'.
Proof.
  revert s executed. induction fuel as [|fuel IH]; intros s executed Hs; [done|].
  simpl. destruct (run_iter s) as [|j s1| |] eqn:Hit; try done.
  - unfold run_iter, wait_pred in Hit. rewrite Hs in Hit. simpl in Hit.
    by destruct (q_ s).
  - pose proof (do_calls_stop (body j) s1) as Hst.
    destruct (do_calls (body j) s1) as [s2 [|]]; [done|]. simpl in Hst.
    apply IH. apply Hst.
    apply run_iter_popped in Hit as (_ & -> & _). done.
  - by apply IH.
Qed.

(** Without a [stop()], jobs that neither post nor throw run in queue
    order and then the loop thread sleeps. *)
Lemma run_loop_blocks (body : J → list (call J)) s executed :
  stop_requested_ s = false →
  (∀ j, j ∈ q_ s → body j = []) →
  run_loop body (S (length (q_ s))) s executed
  = blocked (set_q [] s) (executed ++ q_ s).
Proof.
  destruct s as [q st r]. simpl. intros -> Hbody.
  revert executed. induction q as [|j q IH]; intros executed.
  - by rewrite app_nil_r.
  - cbn [length]. change (run_loop body (S (S (length q))) ?s ?e)
      with (match run_iter s with
            | waiting => blocked s e
            | popped j s' =>
                let '(s'', threw) := do_calls (body j) s' in
                if threw then thrown s'' (e ++ [j])
                else run_loop body (S (length q)) s'' (e ++ [j])
            | leave => returned (set_running false s) e
            | pass => run_loop body (S (length q)) s e
            end).
    rewrite (run_iter_nonempty _ j q); [|done].
    rewrite (Hbody j); [|by left]. simpl do_calls. cbv iota beta.
    unfold set_q at 1. simpl.
    rewrite IH; [by rewrite <- app_assoc|].
    intros j' Hj'. apply Hbody. by right.
Qed.

End scheduler_more.

(** X4. No job is lost, duplicated or run twice: in every interleaving,
    the jobs posted so far are the jobs dispatched so far followed by the
    queue, so [pending()] is the number posted minus the number
    dispatched; and if every posted job is a distinct object, no job is
    dispatched twice and a dispatched job is no longer queued. *)
Theorem posted_jobs_conserved {J : Type} (os : list (Scheduler.op J)) :
  let w := Scheduler.exec os (Scheduler.init_world J) in
  Scheduler.posted (Scheduler.trace w)
  = Scheduler.dispatched (Scheduler.trace w) ++ Scheduler.q_ (Scheduler.sch w)
  ∧ length (Scheduler.posted (Scheduler.trace w))
    = (length (Scheduler.dispatched (Scheduler.trace w))
       + Scheduler.pending (Scheduler.sch w))%nat
  ∧ (NoDup (Scheduler.posted (Scheduler.trace w)) →
     NoDup (Scheduler.dispatched (Scheduler.trace w))
     ∧ ∀ j, j ∈ Scheduler.dispatched (Scheduler.trace w) →
            j ∉ Scheduler.q_ (Scheduler.sch w)).
Proof.
  intros w. pose proof (dispatched_prefix_posted os) as Hp. fold w in Hp.
  split_and!.
  - done.
  - rewrite Hp, length_app. done.
  - rewrite Hp. intros (Hd & Hdis & _)%NoDup_app. done.
Qed.

Lemma posted_jobs_conserved_witness :
  NoDup (Scheduler.dispatched
           (Scheduler.trace
              (Scheduler.exec
                 [Scheduler.op_post 1%nat; Scheduler.op_run; Scheduler.op_iter;
                  Scheduler.op_post 2%nat]
                 (Scheduler.init_world nat)))).
Proof.
  destruct (posted_jobs_conserved
              [Scheduler.op_post 1%nat; Scheduler.op_run; Scheduler.op_iter;
               Scheduler.op_post 2%nat]) as (_ & _ & H).
  apply H. vm_compute. apply (bool_decide_unpack _). vm_compute. exact I.
Defined.

(** X6. [run()] does not return unless somebody called [stop()]: with
    the flag clear at entry and no job that calls [stop()], [run()] on
    its own thread never returns, however long it runs; and when the
    queued jobs moreover neither post nor throw, it runs them in queue
    order and then stays asleep on the condition variable. *)
Theorem run_returns_only_after_stop {J : Type}
    (body : J → list (Scheduler.call J)) (s : Scheduler.scheduler J) :
  Scheduler.stop_requested_ s = false →
  (∀ j, Scheduler.call_stop ∉ body j) →
  (∀ fuel s' executed,
     Scheduler.run body fuel s ≠ Scheduler.returned s' executed)
  ∧ ((∀ j, j ∈ Scheduler.q_ s → body j = []) →
     Scheduler.run body (S (length (Scheduler.q_ s))) s
     = Scheduler.blocked
         (Scheduler.set_q [] (Scheduler.set_running true s))
         (Scheduler.q_ s)).
Proof.
  intros Hs Hbody. unfold Scheduler.run. split.
  - intros fuel s' executed. by apply run_loop_needs_stop.
  - intros Hsilent.
    apply (run_loop_blocks body (Scheduler.set_running true s) []); done.
Qed.

Lemma run_returns_only_after_stop_witness :
  Scheduler.run (λ _ : nat, []) 3
    {| Scheduler.q_ := [1%nat; 2%nat]; Scheduler.stop_requested_ := false;
       Scheduler.running_ := false |}
  = Scheduler.blocked
      {| Scheduler.q_ := []; Scheduler.stop_requested_ := false;
         Scheduler.running_ := true |} [1%nat; 2%nat].
Proof.
  destruct (run_returns_only_after_stop (λ _ : nat, [])
              {| Scheduler.q_ := [1%nat; 2%nat];
                 Scheduler.stop_requested_ := false;
                 Scheduler.running_ := false |}) as [_ H].
  - reflexivity.
  - intros j Hj. by apply elem_of_nil in Hj.
  - apply H. intros j _. reflexivity.
Defined.

(** X7. A stopped scheduler never sleeps: once [stop_requested_] is set
    (nothing clears it), [run()] never blocks on the condition variable,
    whatever the queued jobs post; every later [run()] drains what is
    queued and returns, so the scheduler cannot be started again. *)
Theorem stopped_run_never_blocks {J : Type}
    (body : J → list (Scheduler.call J)) (fuel : nat)
    (s s' : Scheduler.scheduler J) (executed : list J) :
  Scheduler.stop_requested_ s = true →
  Scheduler.run body fuel s ≠ Scheduler.blocked s' executed.
Proof.
  intros Hs. unfold Scheduler.run. by apply run_loop_stopped_not_blocked.
Qed.

Lemma stopped_run_never_blocks_witness :
  Scheduler.run (λ j : nat, [Scheduler.call_post (S j)]) 4
    (Scheduler.stop (Scheduler.init nat)).1
  ≠ Scheduler.blocked (Scheduler.stop (Scheduler.init nat)).1 [].
Proof.
  apply (stopped_run_never_blocks (λ j : nat, [Scheduler.call_post (S j)]) 4).
  reflexivity.
Defined.

(** X8. [co_await sched.schedule()] is a yield: the handle goes to the
    tail of the queue and is not resumed in place, so with nobody else
    posting the loop first runs every job that was already queued, in
    order, and then resumes the coroutine. Without a scheduler behind the
    awaitable the handle is resumed in place instead. *)
Theorem schedule_yields_behind_queue (s : Scheduler.scheduler Scheduler.closure)
    (h : option nat) (t : list (Scheduler.event Scheduler.closure)) :
  Scheduler.resumed_in_place (Scheduler.schedule_await_suspend None h) = h
  ∧ ∃ s1,
      Scheduler.schedule_await_suspend (Scheduler.schedule s) h
      = {| Scheduler.resumed_in_place := None; Scheduler.scheduler_after := Some s1 |}
      ∧ Scheduler.trace
          (Scheduler.exec
             (replicate (S (length (Scheduler.q_ s))) Scheduler.op_iter)
             {| Scheduler.sch := s1; Scheduler.inside := true; Scheduler.trace := t |})
        = t ++ (Scheduler.ev_dispatch <$> Scheduler.q_ s)
            ++ [Scheduler.ev_dispatch (Scheduler.resume_handle h)].
Proof.
  split; [done|]. exists (Scheduler.post_handle h s).1. split; [done|].
  pose proof (exec_iters (Scheduler.q_ s ++ [Scheduler.resume_handle h]) []
                {| Scheduler.sch := (Scheduler.post_handle h s).1;
                   Scheduler.inside := true; Scheduler.trace := t |}) as H.
  rewrite length_app in H. change (length [Scheduler.resume_handle h]) with 1%nat in H.
  replace (length (Scheduler.q_ s) + 1)%nat with (S (length (Scheduler.q_ s))) in H by lia.
  rewrite H; [|done|by rewrite app_nil_r].
  simpl. by rewrite fmap_app.
Qed.

(** ** Task objects and their frames *)

Section ownership.
Import Task.
Context {T : Type}.
Implicit Types (st : state T) (σ : gmap nat (frame T)) (objs : gmap nat (option nat)).

(** Taking over the handle of [other] into the new or emptied object
    [this] keeps the holders apart. *)
Lemma holders_after_move objs (this other : nat) (ho : option nat) :
  this ≠ other →
  objs !! other = Some ho →
  (∀ h, objs !! this ≠ Some (Some h)) →
  (∀ a b h, objs !! a = Some (Some h) → objs !! b = Some (Some h) → a = b) →
  let objs' := <[other := None]> (<[this := ho]> objs) in
  (∀ a h, objs' !! a = Some (Some h) →
          (a = this ∧ ho = Some h) ∨ (a ≠ this ∧ a ≠ other ∧ objs !! a = Some (Some h)))
  ∧ (∀ a b h, objs' !! a = Some (Some h) → objs' !! b = Some (Some h) → a = b).
Proof.
  intros Hne Ho Hthis Huniq objs'.
  assert (Hcase : ∀ a h, objs' !! a = Some (Some h) →
            (a = this ∧ ho = Some h)
            ∨ (a ≠ this ∧ a ≠ other ∧ objs !! a = Some (Some h))).
  { intros a h. unfold objs'.
    destruct (decide (a = other)) as [->|Hao]; [by rewrite lookup_insert_eq|].
    rewrite lookup_insert_ne; [|done].
    destruct (decide (a = this)) as [->|Hat].
    - rewrite lookup_insert_eq. intros [= ->]. by left.
    - rewrite lookup_insert_ne; [|done]. intros H. by right. }
  split; [done|].
  intros a b h Ha Hb.
  destruct (Hcase a h Ha) as [[-> Hha]|(Hat & Hao & Ha')],
           (Hcase b h Hb) as [[-> Hhb]|(Hbt & Hbo & Hb')]; try done.
  - exfalso. apply Hbo. apply (Huniq b other h); [done|]. by rewrite Ho, Hha.
  - exfalso. apply Hao. apply (Huniq a other h); [done|]. by rewrite Ho, Hhb.
  - by apply (Huniq a b h).
Qed.

Lemma owned_call (this h : nat) st :
  owned st → objects st !! this = None → frames st !! h = None →
  owned (call_coroutine this h st).
Proof.
  intros [HA HB] Hthis Hh. split; simpl.
  - intros a h'. destruct (decide (a = this)) as [->|Hne].
    + rewrite lookup_insert_eq. intros [= <-]. unfold create.
      rewrite lookup_insert_eq. by eexists.
    + rewrite lookup_insert_ne; [|done]. intros Ha.
      destruct (HA a h' Ha) as (fr & Hfr & Hd). exists fr. split; [|done].
      unfold create. rewrite lookup_insert_ne; [done|]. congruence.
  - intros a b h'.
    destruct (decide (a = this)) as [->|Ha], (decide (b = this)) as [->|Hb];
      rewrite ?lookup_insert_eq, ?lookup_insert_ne by done; try done.
    + intros [= <-] Hb'. destruct (HA b h Hb') as (fr & Hfr & _). congruence.
    + intros Ha' [= <-]. destruct (HA a h Ha') as (fr & Hfr & _). congruence.
    + apply HB.
Qed.

Lemma owned_move_construct (this other : nat) st :
  owned st → objects st !! this = None → is_Some (objects st !! other) →
  ∃ st', move_construct this other st = Some st' ∧ owned st'.
Proof.
  intros [HA HB] Hthis [ho Ho]. unfold move_construct. rewrite Ho.
  eexists. split; [done|].
  assert (Hne : this ≠ other) by congruence.
  destruct (holders_after_move (objects st) this other ho Hne Ho) as [Hc Hu];
    [congruence | done |].
  split; simpl; [|done].
  intros a h Ha. destruct (Hc a h Ha) as [[-> Hho]|(_ & _ & Ha')].
  - apply (HA other h). by rewrite Ho, Hho.
  - by apply (HA a h).
Qed.

(** [destroy()] on an existing object, under unique ownership. *)
Lemma owned_destroy (this : nat) st :
  owned st → is_Some (objects st !! this) →
  ∃ st', destroy this st = Some st' ∧ owned st'
         ∧ (∀ h, objects st' !! this ≠ Some (Some h))
         ∧ (∀ a, a ≠ this → objects st' !! a = objects st !! a)
         ∧ is_Some (objects st' !! this)
         ∧ sched st' = sched st.
Proof.
  intros [HA HB] [ha Ha]. unfold destroy. rewrite Ha.
  destruct ha as [h|].
  - destruct (HA this h Ha) as (fr & Hfr & Hd). rewrite Hfr.
    eexists. split; [done|]. simpl. split_and!.
    + split; simpl.
      * intros a h'. destruct (decide (a = this)) as [->|Hne].
        { by rewrite lookup_insert_eq. }
        rewrite lookup_insert_ne; [|done]. intros Ha'.
        destruct (HA a h' Ha') as (fr' & Hfr' & Hd'). exists fr'. split; [|done].
        rewrite lookup_delete_ne; [done|]. intros <-. apply Hne.
        by apply (HB a this h).
      * intros a b h'.
        destruct (decide (a = this)) as [->|Hane]; [by rewrite lookup_insert_eq|].
        destruct (decide (b = this)) as [->|Hbne]; [by rewrite lookup_insert_eq|].
        rewrite !lookup_insert_ne by done. apply HB.
    + intros h'. by rewrite lookup_insert_eq.
    + intros a Hne. by rewrite lookup_insert_ne.
    + rewrite lookup_insert_eq. by eexists.
    + done.
  - eexists. split; [done|]. split_and!; try done;
      try (intros h; by rewrite Ha); by eexists.
Qed.

Lemma owned_destructor (this : nat) st :
  owned st → is_Some (objects st !! this) →
  ∃ st', destructor this st = Some st' ∧ owned st'.
Proof.
  intros Hown Hthis. unfold destructor.
  destruct (owned_destroy this st Hown Hthis) as (st1 & -> & [HA HB] & _).
  eexists. split; [done|]. split; simpl.
  - intros a h Ha. apply lookup_delete_Some in Ha as [_ Ha]. by apply (HA a h).
  - intros a b h Ha Hb.
    apply lookup_delete_Some in Ha as [_ Ha].
    apply lookup_delete_Some in Hb as [_ Hb]. by apply (HB a b h).
Qed.

Lemma owned_move_assign (this other : nat) st :
  owned st → is_Some (objects st !! this) → is_Some (objects st !! other) →
  ∃ st', move_assign this other st = Some st' ∧ owned st'.
Proof.
  intros Hown Hthis Hother. unfold move_assign.
  destruct (decide (this = other)) as [<-|Hne].
  - destruct Hthis as [ha ->]. by exists st.
  - destruct (owned_destroy this st Hown Hthis)
      as (st1 & -> & [HA HB] & Hnone & Hsame & _ & _).
    destruct Hother as [ho Ho]. rewrite Hsame, Ho; [|done].
    eexists. split; [done|].
    assert (Ho1 : objects st1 !! other = Some ho) by (rewrite Hsame; done).
    destruct (holders_after_move (objects st1) this other ho Hne Ho1 Hnone HB)
      as [Hc Hu].
    split; simpl; [|done].
    intros a h Ha. destruct (Hc a h Ha) as [[-> Hho]|(_ & _ & Ha')].
    + apply (HA other h). by rewrite Ho1, Hho.
    + by apply (HA a h).
Qed.

Lemma owned_start (this : nat) st :
  owned st → is_Some (objects st !! this) →
  ∃ st', start this st = Some st' ∧ owned st'.
Proof.
  intros [HA HB] [ha Ha]. unfold start. rewrite Ha.
  destruct ha as [h|]; [|by exists st].
  destruct (HA this h Ha) as (fr & Hfr & Hd). rewrite Hfr.
  eexists. split; [done|]. split; simpl.
  - intros a h'. destruct (decide (a = this)) as [->|Hne].
    { by rewrite lookup_insert_eq. }
    rewrite lookup_insert_ne; [|done]. intros Ha'.
    destruct (HA a h' Ha') as (fr' & Hfr' & Hd'). exists fr'. split; [|done].
    rewrite lookup_insert_ne; [done|]. intros <-. apply Hne.
    by apply (HB a this h).
  - intros a b h'.
    destruct (decide (a = this)) as [->|Hane]; [by rewrite lookup_insert_eq|].
    destruct (decide (b = this)) as [->|Hbne]; [by rewrite lookup_insert_eq|].
    rewrite !lookup_insert_ne by done. apply HB.
Qed.

Lemma owned_finish (h : nat) (x : body_exit T) st :
  owned st → is_Some (frames st !! h) →
  ∃ st', finish h x st = Some st' ∧ owned st'.
Proof.
  intros [HA HB] [fr Hfr]. unfold finish.
  rewrite (finish_body_unfold h x (frames st) fr Hfr).
  assert (Hkeep : owned (with_frames
            (<[h := {| prom := complete x (prom fr); done := true |}]> (frames st)) st)).
  { split; simpl; [|done]. intros a h' Ha.
    destruct (HA a h' Ha) as (fr' & Hfr' & Hd').
    destruct (decide (h' = h)) as [->|Hne].
    - rewrite lookup_insert_eq. eexists. split; [done|]. simpl.
      rewrite complete_detached. congruence.
    - rewrite lookup_insert_ne; [|done]. by exists fr'. }
  destruct (continuation (prom fr)) as [c|]; [by eexists|].
  destruct (detached (prom fr)) eqn:Hdet; [|by eexists].
  eexists. split; [done|]. split; simpl; [|done].
  intros a h' Ha. destruct (HA a h' Ha) as (fr' & Hfr' & Hd').
  exists fr'. split; [|done]. rewrite lookup_delete_ne; [done|].
  intros <-. congruence.
Qed.

End ownership.

(** X9. Unique ownership is kept, and with it nothing is destroyed twice:
    if every handle held by a task object points at a live frame that is
    not detached and no two task objects hold the same handle, then every
    action a program can take (calling a coroutine, move construction,
    move assignment, [start], the destructor, a coroutine running to the
    end of its body) is defined, that is it never destroys or reads a
    frame that is gone, and leaves the state uniquely owned again. *)
Theorem task_ownership_preserved {T : Type} (a : Task.action T) (st : Task.state T) :
  Task.owned st →
  Task.allowed a st →
  ∃ st', Task.perform a st = Some st' ∧ Task.owned st'.
Proof.
  intros Hown Hal. destruct a as [this h|this other|this other|this|this|h x];
    simpl in *.
  - destruct Hal as [Hthis Hh]. eexists. split; [done|]. by apply owned_call.
  - destruct Hal as [Hthis Ho]. by apply owned_move_construct.
  - destruct Hal as [Hthis Ho]. by apply owned_move_assign.
  - by apply owned_start.
  - by apply owned_destructor.
  - by apply owned_finish.
Qed.

Lemma task_ownership_preserved_witness :
  ∃ st', Task.perform (T := Z) (Task.act_move_assign 10%nat 20%nat)
           {| Task.frames := Task.create 1%nat (Task.create 2%nat ∅);
              Task.objects := <[10%nat := Some 1%nat]> (<[20%nat := Some 2%nat]> ∅);
              Task.sched := Scheduler.init Scheduler.closure |} = Some st'
         ∧ Task.owned st'.
Proof.
  apply (task_ownership_preserved (T := Z) (Task.act_move_assign 10%nat 20%nat)).
  - split; simpl.
    + intros a h Ha.
      apply lookup_insert_Some in Ha as [[_ Hh]|[_ Ha]].
      * injection Hh as <-. eexists. split; reflexivity.
      * apply lookup_insert_Some in Ha as [[_ Hh]|[_ Ha]].
        -- injection Hh as <-. eexists. split; reflexivity.
        -- by rewrite lookup_empty in Ha.
    + intros a b h Ha Hb.
      apply lookup_insert_Some in Ha as [[<- Hha]|[Hna Ha]];
        apply lookup_insert_Some in Hb as [[<- Hhb]|[Hnb Hb]]; try done.
      * apply lookup_insert_Some in Hb as [[<- Hhb]|[_ Hb]];
          [congruence | by rewrite lookup_empty in Hb].
      * apply lookup_insert_Some in Ha as [[<- Hha]|[_ Ha]];
          [congruence | by rewrite lookup_empty in Ha].
      * apply lookup_insert_Some in Ha as [[<- Hha]|[_ Ha]];
          [|by rewrite lookup_empty in Ha].
        apply lookup_insert_Some in Hb as [[<- Hhb]|[_ Hb]];
          [done | by rewrite lookup_empty in Hb].
  - split; eexists; reflexivity.
Defined.

(** X10. Awaiting a task that already ran to completion does not suspend:
    when the coroutine finished with nobody awaiting it and without being
    detached, its frame stays at the final suspension point,
    [await_ready] is true, and [await_resume] delivers what the body
    left: the exception is rethrown, or the stored value is yielded. *)
Theorem await_completed_task_is_ready {T : Type} (σ : gmap nat (Task.frame T))
    (h : nat) (fr : Task.frame T) (x : Task.body_exit T) :
  σ !! h = Some fr →
  Task.continuation (Task.prom fr) = None →
  Task.detached (Task.prom fr) = false →
  Task.exception (Task.prom fr) = None →
  ∃ σ',
    Task.finish_body h x σ = Some (Task.noop_coroutine, σ')
    ∧ Task.await_ready (Some h) σ' = Some true
    ∧ match x with
      | Task.uncaught F =>
          ∀ is_void, Task.await_resume is_void (Some h) σ' = Some (Task.rethrow F)
      | Task.co_return_value v =>
          Task.await_resume false (Some h) σ' = Some (Task.yields Task.xvalue v)
      | Task.co_return_void =>
          Task.await_resume true (Some h) σ' = Some Task.yields_void
      end.
Proof.
  intros Hh Hc Hd Hex. rewrite (finish_body_unfold h x σ fr Hh), Hc, Hd.
  eexists. split; [done|].
  unfold Task.await_ready, Task.await_resume. rewrite lookup_insert_eq. simpl.
  split; [done|]. destruct x; simpl; unfold Task.return_void; rewrite ?Hex; done.
Qed.

Lemma await_completed_task_is_ready_witness :
  ∃ σ',
    Task.finish_body 1%nat (Task.co_return_value 42) (Task.create 1%nat ∅)
    = Some (Task.noop_coroutine, σ')
    ∧ Task.await_ready (Some 1%nat) σ' = Some true
    ∧ Task.await_resume false (Some 1%nat) σ' = Some (Task.yields Task.xvalue 42).
Proof.
  apply (await_completed_task_is_ready (Task.create 1%nat ∅) 1%nat
           {| Task.prom := Task.new_promise; Task.done := false |}
           (Task.co_return_value 42)); reflexivity.
Defined.

(** X11. [start] posts the coroutine once: a second [start] on the same
    task object finds it empty and changes nothing, as does [start] on a
    task that never held a handle. *)
Theorem start_posts_once {T : Type} (st : Task.state T) (this : nat) (ho : option nat) :
  Task.objects st !! this = Some ho →
  (∀ h, ho = Some h → is_Some (Task.frames st !! h)) →
  ∃ st',
    Task.start this st = Some st'
    ∧ Task.start this st' = Some st'
    ∧ Scheduler.q_ (Task.sched st')
      = Scheduler.q_ (Task.sched st)
        ++ match ho with
           | Some h => [Scheduler.resume_handle (Some h)]
           | None => []
           end.
Proof.
  intros Hobj Hlive. unfold Task.start at 1. rewrite Hobj.
  destruct ho as [h|].
  - destruct (Hlive h eq_refl) as [fr Hfr]. rewrite Hfr.
    eexists. split; [done|]. split; [|done].
    unfold Task.start. simpl. by rewrite lookup_insert_eq.
  - exists st. split; [done|]. split; [|by rewrite app_nil_r].
    unfold Task.start. by rewrite Hobj.
Qed.

Lemma start_posts_once_witness :
  ∃ st',
    Task.start (T := Z) 10%nat
      {| Task.frames := Task.create 1%nat ∅;
         Task.objects := <[10%nat := Some 1%nat]> ∅;
         Task.sched := Scheduler.init Scheduler.closure |} = Some st'
    ∧ Task.start 10%nat st' = Some st'
    ∧ Scheduler.q_ (Task.sched st') = [Scheduler.resume_handle (Some 1%nat)].
Proof.
  apply (start_posts_once (T := Z)
           {| Task.frames := Task.create 1%nat ∅;
              Task.objects := <[10%nat := Some 1%nat]> ∅;
              Task.sched := Scheduler.init Scheduler.closure |}
           10%nat (Some 1%nat)).
  - reflexivity.
  - intros h [= <-]. eexists. reflexivity.
Defined.

(** X12. A task has room for one awaiter: [await_suspend] overwrites
    [continuation], so when two coroutines await the same task, the final
    suspension resumes the second one only and the first is never
    resumed by this task. *)
Theorem second_awaiter_replaces_first {T : Type} (σ : gmap nat (Task.frame T))
    (h c1 c2 : nat) (fr : Task.frame T) (x : Task.body_exit T) :
  σ !! h = Some fr →
  ∃ σ1 σ2 σ3,
    Task.await_suspend (Some h) (Some c1) σ = Some (h, σ1)
    ∧ Task.await_suspend (Some h) (Some c2) σ1 = Some (h, σ2)
    ∧ Task.finish_body h x σ2 = Some (Task.resume_next c2, σ3)
    ∧ (Task.continuation <$> (Task.prom <$> σ3 !! h)) = Some (Some c2).
Proof.
  intros Hh. unfold Task.await_suspend. rewrite Hh.
  eexists _, _, _. split; [done|]. rewrite lookup_insert_eq.
  split; [done|].
  erewrite finish_body_unfold; [|apply lookup_insert_eq]. simpl.
  split; [done|]. rewrite lookup_insert_eq. simpl.
  by rewrite complete_continuation.
Qed.

Lemma second_awaiter_replaces_first_witness :
  ∃ σ1 σ2 σ3,
    Task.await_suspend (Some 1%nat) (Some 7%nat) (Task.create 1%nat ∅) = Some (1%nat, σ1)
    ∧ Task.await_suspend (Some 1%nat) (Some 8%nat) σ1 = Some (1%nat, σ2)
    ∧ Task.finish_body 1%nat (Task.co_return_value 5) σ2
      = Some (Task.resume_next 8%nat, σ3)
    ∧ (Task.continuation <$> (Task.prom <$> σ3 !! 1%nat)) = Some (Some 8%nat).
Proof.
  apply (second_awaiter_replaces_first (Task.create 1%nat ∅) 1%nat 7%nat 8%nat
           {| Task.prom := Task.new_promise; Task.done := false |}
           (Task.co_return_value 5)).
  reflexivity.
Defined.

(** ** Detached spawn *)

(** X13. [spawn_detached] cleans up after itself and lets nothing escape.
    Given a task that holds a live coroutine which has not finished: the
    caller's task is left empty and the adapter resuming the detached
    frame is queued; when that job runs, the detached coroutine suspends
    on the task and control enters the task; however the task's body
    ends, its final suspension hands control back to the detached
    coroutine, which then runs to its end, where its own frame and, with
    the task object stored in it, the task's frame are destroyed. An
    exception from the task is swallowed. *)
Theorem spawn_detached_cleans_up (st : Spawn.state) (dh p t h : nat)
    (fr : Task.frame Task.void) (x : Task.body_exit Task.void) :
  Task.objects (Spawn.tasks st) !! t = Some (Some h) →
  Task.frames (Spawn.tasks st) !! h = Some fr →
  Task.done fr = false →
  Task.exception (Task.prom fr) = None →
  Task.objects (Spawn.tasks st) !! p = None →
  ∃ st1 st2 σ3 st4,
    Spawn.spawn_detached dh p t st = Some st1
    ∧ Task.objects (Spawn.tasks st1) !! t = Some None
    ∧ Scheduler.q_ (Task.sched (Spawn.tasks st1))
      = Scheduler.q_ (Task.sched (Spawn.tasks st))
        ++ [Scheduler.resume_handle (Some dh)]
    ∧ Spawn.enter dh st1 = Some (Spawn.transferred h st2)
    ∧ Task.finish_body h x (Task.frames (Spawn.tasks st2))
      = Some (Task.resume_next dh, σ3)
    ∧ Spawn.resume_tail dh
        {| Spawn.tasks := Task.with_frames σ3 (Spawn.tasks st2);
           Spawn.dframes := Spawn.dframes st2 |}
      = Some (match x with
              | Task.uncaught F => Spawn.swallowed F
              | _ => Spawn.returned
              end, st4)
    ∧ Task.frames (Spawn.tasks st4) !! h = None
    ∧ Spawn.dframes st4 !! dh = None
    ∧ Task.objects (Spawn.tasks st4) !! p = None.
Proof.
  intros Ht Hfr Hnd Hex Hp.
  assert (Hpt : p ≠ t) by congruence.
  unfold Spawn.spawn_detached, Spawn.make_detached, Task.move_construct.
  rewrite Ht.
  destruct x as [[]| |F].
  all: eexists _, _, _, _; split; [done|]; simpl.
  all: split; [apply lookup_insert_eq|]; split; [done|].
  all: unfold Spawn.enter; simpl; rewrite lookup_insert_eq.
  all: rewrite lookup_insert_ne, lookup_insert_eq; [|done].
  all: unfold Task.await_ready, Task.await_suspend; rewrite Hfr; simpl; rewrite Hnd.
  all: split; [done|]; simpl.
  all: erewrite finish_body_unfold; [|apply lookup_insert_eq]; simpl.
  all: split; [done|].
  all: unfold Spawn.resume_tail; simpl; rewrite lookup_insert_eq.
  all: rewrite lookup_insert_ne, lookup_insert_eq; [|done].
  all: unfold Task.await_resume; rewrite lookup_insert_eq; simpl.
  all: unfold Task.destructor, Task.destroy; simpl.
  all: rewrite lookup_insert_ne, lookup_insert_eq; [|done].
  all: rewrite lookup_insert_eq.
  all: unfold Task.return_void; rewrite ?Hex; simpl.
  all: split; [done|]; simpl.
  all: split_and!; apply lookup_delete_eq.
Qed.

Lemma spawn_detached_cleans_up_witness :
  ∃ st1 st2 σ3 st4,
    Spawn.spawn_detached 50%nat 20%nat 10%nat
      {| Spawn.tasks :=
           {| Task.frames := Task.create 1%nat ∅;
              Task.objects := <[10%nat := Some 1%nat]> ∅;
              Task.sched := Scheduler.init Scheduler.closure |};
         Spawn.dframes := ∅ |} = Some st1
    ∧ Spawn.enter 50%nat st1 = Some (Spawn.transferred 1%nat st2)
    ∧ Task.finish_body 1%nat (Task.uncaught (Error.other_error "boom"))
        (Task.frames (Spawn.tasks st2))
      = Some (Task.resume_next 50%nat, σ3)
    ∧ Spawn.resume_tail 50%nat
        {| Spawn.tasks := Task.with_frames σ3 (Spawn.tasks st2);
           Spawn.dframes := Spawn.dframes st2 |}
      = Some (Spawn.swallowed (Error.other_error "boom"), st4)
    ∧ Task.frames (Spawn.tasks st4) !! 1%nat = None.
Proof.
  destruct (spawn_detached_cleans_up
              {| Spawn.tasks :=
                   {| Task.frames := Task.create 1%nat ∅;
                      Task.objects := <[10%nat := Some 1%nat]> ∅;
                      Task.sched := Scheduler.init Scheduler.closure |};
                 Spawn.dframes := ∅ |}
              50%nat 20%nat 10%nat 1%nat
              {| Task.prom := Task.new_promise; Task.done := false |}
              (Task.uncaught (Error.other_error "boom")))
    as (st1 & st2 & σ3 & st4 & H1 & _ & _ & H2 & H3 & H4 & H5 & _);
    try reflexivity.
  exists st1, st2, σ3, st4. split_and!; assumption.
Defined.

(** ** Cancellation, network and pool awaitables *)

(** X14. Sources are independent: a new source gets a state no earlier
    source or token points at, and [request_cancel] touches only the
    state of its own source; so cancelling a source, new or old, never
    changes what a token of another source reports. *)
Theorem cancel_sources_independent (σ : gmap nat bool)
    (s : Cancel.cancel_source) (t : Cancel.cancel_token) :
  (∀ l, Cancel.tok_st_ t = Some l → is_Some (σ !! l) ∧ Cancel.src_st_ s ≠ Some l) →
  Cancel.token_is_cancelled t (Cancel.request_cancel s σ)
  = Cancel.token_is_cancelled t σ
  ∧ Cancel.token_is_cancelled t (Cancel.new_source σ).2
    = Cancel.token_is_cancelled t σ
  ∧ Cancel.token_is_cancelled t
      (Cancel.request_cancel (Cancel.new_source σ).1 (Cancel.new_source σ).2)
    = Cancel.token_is_cancelled t σ.
Proof.
  intros Ht. unfold Cancel.token_is_cancelled.
  destruct (Cancel.tok_st_ t) as [l|]; [|done].
  destruct (Ht l eq_refl) as [[b Hb] Hne].
  assert (Hfresh : fresh (dom σ) ≠ l).
  { intros <-. pose proof (make_shared_fresh σ) as Hf. simpl in Hf. congruence. }
  unfold Cancel.request_cancel, Cancel.new_source, Cancel.make_shared,
    Cancel.state_request_cancel, Cancel.state_is_cancelled. simpl.
  split_and!.
  - destruct (Cancel.src_st_ s) as [l'|]; [|done].
    rewrite lookup_insert_ne; [done|]. congruence.
  - by rewrite lookup_insert_ne.
  - by rewrite !lookup_insert_ne.
Qed.

Lemma cancel_sources_independent_witness :
  Cancel.token_is_cancelled (Cancel.token (Cancel.new_source ∅).1)
    (Cancel.request_cancel (Cancel.new_source (Cancel.new_source ∅).2).1
       (Cancel.new_source (Cancel.new_source ∅).2).2)
  = Cancel.token_is_cancelled (Cancel.token (Cancel.new_source ∅).1)
      (Cancel.new_source (Cancel.new_source ∅).2).2.
Proof.
  destruct (cancel_sources_independent
              (Cancel.new_source (Cancel.new_source ∅).2).2
              (Cancel.new_source (Cancel.new_source ∅).2).1
              (Cancel.token (Cancel.new_source ∅).1))
    as (H & _ & _); [|exact H].
  intros l Hl. vm_compute in Hl. injection Hl as <-.
  split; [eexists; reflexivity | vm_compute; discriminate].
Defined.

Lemma token_stays_cancelled (t : Cancel.cancel_token) (cs : list Cancel.call)
    (σ : gmap nat bool) :
  Cancel.token_is_cancelled t σ = true →
  Cancel.token_is_cancelled t (Cancel.run_calls cs σ) = true.
Proof.
  unfold Cancel.token_is_cancelled. destruct (Cancel.tok_st_ t); [|done].
  apply run_calls_keep_cancelled.
Qed.

(** X16. A network operation whose token is not cancelled, from
    [await_suspend] to [await_resume]: if the starter throws, nothing is
    handed to the reactor and that exception is rethrown at the await;
    if the operation starts, what the completion handler receives decides:
    a non-zero error code comes back as a [system_error] with that code,
    a zero code as the value (or as plain completion for a void
    operation), and the empty optional is never read. *)
Theorem net_operation_end_to_end {T : Type} (σ σ' : gmap nat bool)
    (h : option nat) (t : Cancel.cancel_token)
    (q : Scheduler.scheduler Scheduler.closure) :
  Cancel.token_is_cancelled t σ = false →
  Cancel.token_is_cancelled t σ' = false →
  (∀ e,
     let r := Net.await_suspend (T := T) σ h (Net.make t (Net.start_throws e)) q in
     Net.in_flight r = false
     ∧ ∀ is_void, Net.await_resume is_void σ' (Net.aw r) = Some (Task.rethrow e))
  ∧ (let r := Net.await_suspend (T := T) σ h (Net.make t Net.start_ok) q in
     Net.in_flight r = true
     ∧ (∀ ec v q',
          Net.await_resume false σ' (Net.handler h ec v (Net.aw r) q').1
          = if Error.ec_bool ec then Some (Task.rethrow (Error.system_error ec))
            else Some (Task.yields Task.xvalue v))
     ∧ (∀ ec q',
          Net.await_resume true σ' (Net.handler_void h ec (Net.aw r) q').1
          = if Error.ec_bool ec then Some (Task.rethrow (Error.system_error ec))
            else Some Task.yields_void)).
Proof.
  intros Hc Hc'. unfold Net.await_suspend, Net.make. simpl. rewrite Hc. simpl.
  split.
  - intros e. split; [done|]. intros is_void.
    unfold Net.await_resume. simpl. by rewrite Hc'.
  - split; [done|]. split.
    + intros ec v q'. unfold Net.await_resume, Net.handler. simpl.
      rewrite Hc'. by destruct (Error.ec_bool ec).
    + intros ec q'. unfold Net.await_resume, Net.handler_void. simpl.
      rewrite Hc'. by destruct (Error.ec_bool ec).
Qed.

Lemma net_operation_end_to_end_witness :
  Net.await_resume (T := Z) false ∅
    (Net.handler (Some 3%nat)
       {| Error.ec_value := 104; Error.ec_category := "system" |} 0
       (Net.aw (Net.await_suspend ∅ (Some 3%nat)
                  (Net.make Cancel.empty_token Net.start_ok)
                  (Scheduler.init Scheduler.closure)))
       (Scheduler.init Scheduler.closure)).1
  = Some (Task.rethrow
            (Error.system_error
               {| Error.ec_value := 104; Error.ec_category := "system" |})).
Proof.
  destruct (net_operation_end_to_end (T := Z) ∅ ∅ (Some 3%nat) Cancel.empty_token
              (Scheduler.init Scheduler.closure)) as [_ (_ & H & _)];
    [reflexivity | reflexivity |].
  apply (H {| Error.ec_value := 104; Error.ec_category := "system" |} 0
           (Scheduler.init Scheduler.closure)).
Defined.

(** X17. A network operation awaited with an already cancelled token is
    never started: [await_suspend] does not call the starter, only posts
    the handle; and whatever happens to the cancellation states before
    the coroutine is resumed, [await_resume] throws the canceled error. *)
Theorem net_cancelled_before_start {T : Type} (σ : gmap nat bool)
    (h : option nat) (t : Cancel.cancel_token) (st : Net.started)
    (q : Scheduler.scheduler Scheduler.closure) :
  Cancel.token_is_cancelled t σ = true →
  let r := Net.await_suspend (T := T) σ h (Net.make t st) q in
  Net.in_flight r = false
  ∧ Net.aw r = Net.make t st
  ∧ Scheduler.q_ (Net.loop r) = Scheduler.q_ q ++ [Scheduler.resume_handle h]
  ∧ ∀ cs is_void,
      Net.await_resume is_void (Cancel.run_calls cs σ) (Net.aw r)
      = Some (Task.rethrow (Error.system_error (Error.make_error_code Error.canceled))).
Proof.
  intros Hc. unfold Net.await_suspend, Net.make. simpl. rewrite Hc. simpl.
  split_and!; try done.
  intros cs is_void. unfold Net.await_resume. simpl.
  by rewrite (token_stays_cancelled t cs σ Hc).
Qed.

Lemma net_cancelled_before_start_witness :
  Net.in_flight
    (Net.await_suspend (T := Z)
       (Cancel.request_cancel (Cancel.new_source ∅).1 (Cancel.new_source ∅).2)
       (Some 3%nat)
       (Net.make (Cancel.token (Cancel.new_source ∅).1) Net.start_ok)
       (Scheduler.init Scheduler.closure))
  = false.
Proof.
  destruct (net_cancelled_before_start (T := Z)
              (Cancel.request_cancel (Cancel.new_source ∅).1 (Cancel.new_source ∅).2)
              (Some 3%nat) (Cancel.token (Cancel.new_source ∅).1) Net.start_ok
              (Scheduler.init Scheduler.closure)) as [H _];
    [reflexivity | exact H].
Defined.

(** X18. After the queued job of [submit] ran, [await_resume] is always
    defined: [take()] never reads an empty slot. For a job of non-void
    result exactly one of the two is there, the captured exception or
    the stored value. *)
Theorem pool_resume_after_job_defined {R : Type} (is_void : bool)
    (σ : gmap nat bool) (t : Cancel.cancel_token)
    (f : unit → ThreadPool.outcome R) (h : option nat) :
  let a := (ThreadPool.job is_void σ h (ThreadPool.make t f)).1 in
  is_Some (ThreadPool.await_resume is_void a)
  ∧ (is_Some (ThreadPool.ex a) → ThreadPool.store a = None)
  ∧ (is_void = false → ThreadPool.ex a = None → is_Some (ThreadPool.store a)).
Proof.
  intros a. subst a. unfold ThreadPool.job, ThreadPool.make. simpl.
  destruct (Cancel.token_is_cancelled t σ); simpl.
  - split_and!; [by eexists | done | done].
  - destruct (f ()) as [r|e]; simpl.
    + destruct is_void; simpl;
        (split_and!; [by eexists | by intros [? ?] | try done; intros _ _; by eexists]).
    + split_and!; [by eexists | done | done].
Qed.

Lemma pool_resume_after_job_defined_witness :
  is_Some
    (ThreadPool.store
       (ThreadPool.job false ∅ (Some 3%nat)
          (ThreadPool.make Cancel.empty_token (λ _, ThreadPool.returns 99))).1).
Proof.
  destruct (pool_resume_after_job_defined false ∅ Cancel.empty_token
              (λ _, ThreadPool.returns 99) (Some 3%nat)) as (_ & _ & H).
  apply H; reflexivity.
Defined.
